(** * IAM reconciliation module ([cloud/amazon/iam.py])

    A shallow embedding of the Ansible [iam] module and the properties of
    its reconcilers.  The provider (boto's IAM connection) is an opaque
    collaborator: it is modelled as an arbitrary function from the calls
    issued so far and the call being issued to a response or a
    [BotoServerError].  Every function of the module is a computation in a
    monad that threads the trace of provider calls and distinguishes the
    four ways a Python statement can finish here: normally, by raising an
    exception, by [module.exit_json] and by [module.fail_json]. *)

From Stdlib Require Import ZArith String Ascii List Lia.
From stdpp Require Import base decidable option list gmap sets strings.

#[global] Set Warnings "-clear-no-such-hyp".

Open Scope string_scope.
Open Scope list_scope.
Open Scope Z_scope.

(** ** Python strings *)

Module PyStr.

(** [c.lower()] and [c.upper()] on one ASCII character. *)
Definition lower_ascii (c : ascii) : ascii :=
  let n := nat_of_ascii c in
  if ((65 <=? n) && (n <=? 90))%nat then ascii_of_nat (n + 32) else c.

Definition upper_ascii (c : ascii) : ascii :=
  let n := nat_of_ascii c in
  if ((97 <=? n) && (n <=? 122))%nat then ascii_of_nat (n - 32) else c.

(** [s.lower()] *)
Fixpoint lower (s : string) : string :=
  match s with
  | EmptyString => EmptyString
  | String c r => String (lower_ascii c) (lower r)
  end.

(** [s.capitalize()]: first character upper-cased, the rest lower-cased. *)
Definition capitalize (s : string) : string :=
  match s with
  | EmptyString => EmptyString
  | String c r => String (upper_ascii c) (lower r)
  end.

(** [needle in hay] on strings: substring test. *)
Fixpoint contains (needle hay : string) : bool :=
  String.prefix needle hay ||
  match hay with
  | EmptyString => false
  | String _ r => contains needle r
  end.

(** Truth value of a parameter that is [None] or a string. *)
Definition truthy (o : option string) : bool :=
  match o with
  | Some s => negb (String.eqb s "")
  | None => false
  end.

(** Truth value of a parameter that is [None] or a list. *)
Definition truthy_list {A} (o : option (list A)) : bool :=
  match o with
  | Some (_ :: _) => true
  | _ => false
  end.

(** ["%s" % o] *)
Definition fmt (o : option string) : string :=
  match o with
  | Some s => s
  | None => "None"
  end.

End PyStr.

Import PyStr.

(** ** The provider boundary *)

(** A [boto.exception.BotoServerError]: the three renderings the module
    reads are [err.error_message], [err.message] and [str(err)]. *)
Record BotoServerError := mkBotoServerError {
  error_message : string;
  message : string;
  to_str : string
}.

(** [boto_exception(err)] for a [BotoServerError], which always carries an
    [error_message] attribute. *)
Definition boto_exception (err : BotoServerError) : string :=
  error_message err.

(** [boto_exception(s)] applied to a plain string, which has neither an
    [error_message] nor a [message] attribute. *)
Definition boto_exception_str (s : string) : string :=
  "<type 'exceptions.Exception'>: " +:+ s.

(** The calls the module issues on the [iam] connection.  Names that reach
    a call from a parameter may be [None]; names read from a provider
    listing are strings. *)
Inductive Call : Type :=
  (* inventory *)
  | GetAllGroups
  | GetAllUsers
  | ListRoles
  | ListInstanceProfiles
  (* users *)
  | CreateUser (name path : option string)
  | GetUser (name : option string)
  | UpdateUser (name new_user_name new_path : option string)
  | DeleteUser (name : option string)
  | GetAllUserPolicies (name : option string)
  | DeleteUserPolicy (name : option string) (policy : string)
  (* login profiles *)
  | CreateLoginProfile (name pwd : option string)
  | UpdateLoginProfile (name pwd : option string)
  | GetLoginProfiles (name : option string)
  | DeleteLoginProfile (name : option string)
  (* access keys *)
  | GetAllAccessKeys (name : option string)
  | CreateAccessKey (name : option string)
  | UpdateAccessKey (key status : string) (name : option string)
  | DeleteAccessKey (key : string) (name : option string)
  (* group membership *)
  | GetGroupsForUser (name : option string)
  | AddUserToGroup (group : string) (name : option string)
  | RemoveUserFromGroup (group : string) (name : option string)
  (* groups *)
  | CreateGroup (name path : option string)
  | GetGroup (name : option string)
  | UpdateGroup (name new_group_name new_path : option string)
  | DeleteGroup (name : option string)
  | GetAllGroupPolicies (name : option string)
  | DeleteGroupPolicy (name : option string) (policy : string)
  (* roles and instance profiles *)
  | CreateRole (name path : option string)
  | DeleteRole (name : option string)
  | ListRolePolicies (name : option string)
  | DeleteRolePolicy (name : option string) (policy : string)
  | ListInstanceProfilesForRole (name : option string)
  | RemoveRoleFromInstanceProfile (profile : string) (name : option string)
  | CreateInstanceProfile (name path : option string)
  | AddRoleToInstanceProfile (profile role : option string)
  | DeleteInstanceProfile (name : option string).

#[global] Instance Call_eq_dec : EqDecision Call.
Proof. solve_decision. Defined.

(** What the module reads out of each successful response.  A listing is
    reduced to the field the module projects from it ([group_name],
    [user_name], ...); access-key metadata keeps [access_key_id] and
    [status]; [get_user] and [get_group] keep the [path]; a created access
    key is kept as its id.  Responses the module never inspects are [unit]. *)
Definition resp (c : Call) : Type :=
  match c with
  | GetAllGroups | GetAllUsers | ListRoles | ListInstanceProfiles
  | GetAllUserPolicies _ | GetGroupsForUser _ | GetAllGroupPolicies _
  | ListRolePolicies _ | ListInstanceProfilesForRole _ => list string
  | GetAllAccessKeys _ => list (string * string)
  | GetUser _ | GetGroup _ => string
  | CreateAccessKey _ => string
  | _ => unit
  end.

Inductive Boto (A : Type) : Type :=
  | Ok (a : A)
  | Fault (err : BotoServerError).
Arguments Ok {A} a.
Arguments Fault {A} err.

Definition Trace := list Call.

(** The connection: the response to a call may depend on every call issued
    before it in this invocation. *)
Definition Provider := Trace -> forall c : Call, Boto (resp c).

(** ** Outcomes and the invocation monad *)

Inductive Exn : Type :=
  | BotoErr (err : BotoServerError)
  | UnboundLocalError (var : string)
  | AttributeError (msg : string).

(** [str(ex)] *)
Definition str_exn (ex : Exn) : string :=
  match ex with
  | BotoErr err => to_str err
  | UnboundLocalError var =>
      "local variable '" +:+ var +:+ "' referenced before assignment"
  | AttributeError msg => msg
  end.

(** Values handed to [exit_json]. *)
#[warnings="-register-all"]
Inductive PyVal : Type :=
  | VNone
  | VBool (b : bool)
  | VInt (z : Z)
  | VStr (s : string)
  | VList (l : list PyVal)
  | VDict (d : list (string * PyVal))
  | VResp.  (* a provider response object handed on unread *)

Definition vstr (o : option string) : PyVal :=
  match o with Some s => VStr s | None => VNone end.

Definition vstrs (l : list string) : PyVal := VList (map VStr l).

Definition vkeys (l : list (string * string)) : PyVal :=
  VList (map (fun k => VDict [("access_key_id", VStr k.1); ("status", VStr k.2)]) l).

(** How a block of statements is left other than by running to its end.
    [exit_json] and [fail_json] end the process through [SystemExit], which
    no [except Exception] clause of the module intercepts, so neither ever
    returns to its caller. *)
Inductive Abort : Type :=
  | Raise (ex : Exn)
  | ExitJson (changed : PyVal) (fields : list (string * PyVal))
  | FailJson (changed : option bool) (msg : string).

Inductive Res (A : Type) : Type :=
  | Ret (a : A)
  | Abrupt (s : Abort).
Arguments Ret {A} a.
Arguments Abrupt {A} s.

Definition M (A : Type) : Type := Provider -> Trace -> Res A * Trace.

Definition ret {A} (a : A) : M A := fun _ t => (Ret a, t).

Definition bind {A B} (m : M A) (k : A -> M B) : M B :=
  fun iam t =>
    match m iam t with
    | (Ret a, t') => k a iam t'
    | (Abrupt s, t') => (Abrupt s, t')
    end.

Declare Scope py_scope.
Delimit Scope py_scope with py.
Notation "'do' x <- m ; k" := (bind m (fun x => k))
  (at level 10, x pattern, m at level 100, k at level 200,
   format "'[v' 'do'  x  <-  m ; '/' k ']'") : py_scope.
Open Scope py_scope.

Definition abort {A} (s : Abort) : M A := fun _ t => (Abrupt s, t).

Definition raise {A} (ex : Exn) : M A := abort (Raise ex).

Definition exit_json {A} (changed : PyVal) (fields : list (string * PyVal)) : M A :=
  abort (ExitJson changed fields).

Definition fail_json {A} (changed : option bool) (msg : string) : M A :=
  abort (FailJson changed msg).

(** [module.fail_json(...)] in a function whose [module] parameter defaults
    to [None]: the group functions are called without it. *)
Definition fail_json_on {A} (module : option unit) (changed : option bool)
    (msg : string) : M A :=
  match module with
  | Some _ => fail_json changed msg
  | None => raise (AttributeError "'NoneType' object has no attribute 'fail_json'")
  end.

(** One provider call: it is appended to the trace whether it succeeds or
    faults. *)
Definition call (c : Call) : M (resp c) :=
  fun iam t =>
    match iam t c with
    | Ok v => (Ret v, t ++ [c])
    | Fault err => (Abrupt (Raise (BotoErr err)), t ++ [c])
    end.

(** Reading a local variable that is bound only on some paths. *)
Definition read_local {A} (var : string) (v : option A) : M A :=
  match v with
  | Some a => ret a
  | None => raise (UnboundLocalError var)
  end.

(** [try: body / except Exception as ex: handler ex / else: orelse] *)
Definition try_exception_else {A B} (body : M A) (handler : Exn -> M B)
    (orelse : A -> M B) : M B :=
  fun iam t =>
    match body iam t with
    | (Ret a, t') => orelse a iam t'
    | (Abrupt (Raise ex), t') => handler ex iam t'
    | (Abrupt s, t') => (Abrupt s, t')
    end.

Definition try_exception {A} (body : M A) (handler : Exn -> M A) : M A :=
  try_exception_else body handler ret.

(** [try: body / except boto.exception.BotoServerError, err: handler err /
    else: orelse] *)
Definition try_boto_else {A B} (body : M A) (handler : BotoServerError -> M B)
    (orelse : A -> M B) : M B :=
  fun iam t =>
    match body iam t with
    | (Ret a, t') => orelse a iam t'
    | (Abrupt (Raise (BotoErr err)), t') => handler err iam t'
    | (Abrupt s, t') => (Abrupt s, t')
    end.

Definition try_boto {A} (body : M A) (handler : BotoServerError -> M A) : M A :=
  try_boto_else body handler ret.

(** [for x in l: body x] *)
Fixpoint for_each {A} (l : list A) (body : A -> M unit) : M unit :=
  match l with
  | [] => ret tt
  | x :: r => do _ <- body x; for_each r body
  end.

(** [for x in l: acc = body acc x] for a loop that updates one local. *)
Fixpoint for_fold {A S} (l : list A) (acc : S) (body : S -> A -> M S) : M S :=
  match l with
  | [] => ret acc
  | x :: r => do acc' <- body acc x; for_fold r acc' body
  end.

(** [while cond s: s = body s].  The loops of the module advance a counter
    towards a bound, so the caller can name a number of iterations that is
    never exhausted (see [while_loop_fuel]). *)
Fixpoint while_loop {S} (fuel : nat) (cond : S -> bool) (body : S -> M S) (s : S) : M S :=
  match fuel with
  | O => ret s
  | Datatypes.S n =>
      if cond s then do s' <- body s; while_loop n cond body s' else ret s
  end.

Definition when (b : bool) (m : M unit) : M unit := if b then m else ret tt.

(** [x in l] where [l] is a list of names and [x] is a name or [None]. *)
Definition name_in (x : option string) (l : list string) : bool :=
  match x with
  | Some n => bool_decide (n ∈ l)
  | None => false
  end.

(** [a != b] *)
Definition py_ne (a b : option string) : bool := negb (bool_decide (a = b)).

(** ** The module's functions *)

(** *** [create_user] *)

Definition create_user (name pwd path key_state : option string) (key_count : Z)
  : M (list (string * PyVal) * bool) :=
  let key_qty := 0 in
  let keys : list string := [] in
  try_boto_else
    (do _ <- call (CreateUser name path);
     let user_meta := VResp in
     let changed := true in
     do pwd <- match pwd with
               | Some _ => do _ <- call (CreateLoginProfile name pwd); ret VResp
               | None => ret VNone
               end;
     do keys <-
       (if bool_decide (key_state = Some "create") then
          if negb (key_count =? 0) then
            do st <- while_loop (Z.to_nat (key_count - key_qty))
                       (fun st : Z * list string => key_count >? st.1)
                       (fun st =>
                          do k <- call (CreateAccessKey name);
                          ret (st.1 + 1, st.2 ++ [k]))
                       (key_qty, keys);
            ret (vstrs st.2)
          else ret (vstrs keys)
        else ret VNone);
     ret (user_meta, pwd, keys, changed))
    (fun err => fail_json (Some false) (to_str err))
    (fun '(user_meta, pwd, keys, changed) =>
       let user_info :=
         [("created_user", user_meta); ("password", pwd); ("access_keys", keys)] in
       ret (user_info, changed)).

(** *** [delete_user] *)

(** The handler of the outer [try] opens with [module.fail_json], which does
    not return: the statements that follow it in the handler (the
    inline-policy clean-up and the second [iam.delete_user]) are never
    reached and the handler is that one call. *)
Definition delete_user (name : option string) : M (PyVal * option string * bool) :=
  let del_meta := VStr "" in
  try_exception_else
    (do metadata <- call (GetAllAccessKeys name);
     let current_keys := map fst metadata in
     do _ <- for_each current_keys (fun key => call (DeleteAccessKey key name));
     try_boto
       (do _ <- call (GetLoginProfiles name);
        ret del_meta)
       (fun err =>
          let error_msg := boto_exception err in
          if contains "Cannot find Login Profile" error_msg then
            do _ <- call (DeleteUser name);
            ret VResp
          else
            do _ <- call (DeleteLoginProfile name);
            do _ <- call (DeleteUser name);
            ret VResp))
    (fun ex => fail_json (Some false) ("delete failed " +:+ str_exn ex))
    (fun del_meta =>
       let changed := true in
       ret (del_meta, name, changed)).

(** *** [update_user] *)

(** The pair of list comprehensions over two [get_all_access_keys] calls:
    ids from the first response, statuses from the second. *)
Definition fetch_keys (name : option string) : M (list string * list string) :=
  do m1 <- call (GetAllAccessKeys name);
  do m2 <- call (GetAllAccessKeys name);
  ret (map fst m1, map snd m2).

Definition update_user (name new_name new_path key_state : option string)
    (key_count : Z) (keys : option (list string)) (pwd : option string)
    (updated : bool) : M (bool * gmap string string * bool) :=
  let changed := false in
  let name_change := false in
  let name := if updated && truthy new_name then new_name else name in
  (* key_qty is bound in the try body only, not in its handler *)
  do (name, current_keys, status, key_qty) <-
    try_boto
      (do ks <- fetch_keys name;
       ret (name, ks.1, ks.2, Some (Z.of_nat (length ks.1))))
      (fun err =>
         let error_msg := boto_exception err in
         if contains "cannot be found" error_msg && updated then
           do ks <- fetch_keys new_name;
           ret (new_name, ks.1, ks.2, None)
         else fail_json (Some false) (to_str err));
  do (changed, name_change) <-
    (if truthy new_name || truthy new_path then
       do c_path <- call (GetUser name);
       if py_ne name new_name || py_ne (Some c_path) new_path then
         let changed := true in
         try_boto_else
           (if negb updated then call (UpdateUser name new_name new_path)
            else call (UpdateUser name None new_path))
           (fun err => fail_json (Some false) (to_str err))
           (fun _ => ret (changed, if negb updated then true else name_change))
       else ret (changed, name_change)
     else ret (changed, name_change));
  do changed <-
    (if truthy pwd then
       try_boto
         (do _ <- call (UpdateLoginProfile name pwd);
          ret true)
         (fun _ =>
            try_boto
              (do _ <- call (CreateLoginProfile name pwd);
               ret true)
              (fun err =>
                 let error_msg := boto_exception_str (to_str err) in
                 if contains "Password does not conform to the account password policy"
                      error_msg
                 then fail_json (Some false) "Passsword doesn't conform to policy"
                 else fail_json None error_msg))
     else ret changed);
  do changed <-
    (if bool_decide (key_state = Some "create") then
       try_boto
         (do key_qty <- read_local "key_qty" key_qty;
          do st <- while_loop (Z.to_nat (key_count - key_qty))
                     (fun st : Z * bool => key_count >? st.1)
                     (fun st =>
                        do _ <- call (CreateAccessKey name);
                        ret (st.1 + 1, true))
                     (key_qty, changed);
          ret st.2)
         (fun err => fail_json (Some false) (to_str err))
     else ret changed);
  do changed <-
    (if truthy_list keys && truthy key_state then
       let key_state := default "" key_state in
       for_fold (default [] keys) changed (fun changed access_key =>
         if bool_decide (access_key ∈ current_keys) then
           do changed <-
             for_fold (zip current_keys status) changed
               (fun changed '(current_key, current_key_state) =>
                  if negb (String.eqb key_state (lower current_key_state)) then
                    try_boto_else
                      (call (UpdateAccessKey access_key (capitalize key_state) name))
                      (fun err => fail_json (Some false) (to_str err))
                      (fun _ => ret true)
                  else ret changed);
           if String.eqb key_state "remove" then
             try_boto_else
               (call (DeleteAccessKey access_key name))
               (fun err => fail_json (Some false) (to_str err))
               (fun _ => ret true)
           else ret changed
         else ret changed)
     else ret changed);
  do final <-
    try_boto (fetch_keys name)
      (fun err => fail_json (Some changed) (to_str err));
  let updated_key_list : gmap string string :=
    foldl (fun d kv => <[kv.1 := kv.2]> d) ∅ (zip final.1 final.2) in
  ret (name_change, updated_key_list, changed).

(** *** [set_users_groups] *)

Definition set_users_groups (name : option string) (groups : list string)
    (updated : bool) (new_name : option string) : M (list string * bool) :=
  let changed := false in
  let name := if updated then new_name else name in
  try_boto_else
    (do orig_users_groups <- call (GetGroupsForUser name);
     let remove_groups :=
       elements ((list_to_set orig_users_groups : gset string) ∖ list_to_set groups) in
     let new_groups :=
       elements ((list_to_set groups : gset string) ∖ list_to_set orig_users_groups) in
     ret (orig_users_groups, remove_groups, new_groups))
    (fun err => fail_json (Some changed) (to_str err))
    (fun '(orig_users_groups, remove_groups, new_groups) =>
       do _ <-
         (if (0 <? length orig_users_groups)%nat then
            do _ <- for_each new_groups (fun new => call (AddUserToGroup new name));
            for_each remove_groups (fun rm => call (RemoveUserFromGroup rm name))
          else
            for_each groups (fun group =>
              try_boto
                (call (AddUserToGroup group name))
                (fun err =>
                   let error_msg := boto_exception err in
                   if contains ("The group with name " +:+ group +:+ " cannot be found.")
                        error_msg
                   then fail_json (Some false) ("Group " +:+ group +:+ " doesn't exist")
                   else ret tt)));
       let changed :=
         if (0 <? length remove_groups)%nat || (0 <? length new_groups)%nat
         then true else changed in
       ret (groups, changed)).

(** *** Groups *)

Definition managed_policies_msg (name : option string) : string :=
  "All inline polices have been removed. Though it appears" +:+
  "that " +:+ fmt name +:+ " has Managed Polices. This is not " +:+
  "currently supported by boto. Please detach the polices " +:+
  "through the console and try again.".

Definition create_group (module : option unit) (name path : option string)
  : M (option string * bool) :=
  let changed := false in
  try_boto_else
    (call (CreateGroup name path))
    (fun err => fail_json_on module (Some changed) (to_str err))
    (fun _ => ret (name, true)).

Definition delete_group (module : option unit) (name : option string)
  : M (bool * option string) :=
  let changed := false in
  do changed <-
    try_boto_else
      (call (DeleteGroup name))
      (fun err =>
         let error_msg := boto_exception err in
         if contains "must detach all policies first" error_msg then
           do policy_names <- call (GetAllGroupPolicies name);
           do _ <- for_each policy_names (fun policy =>
                     call (DeleteGroupPolicy name policy));
           try_boto_else
             (call (DeleteGroup name))
             (fun err =>
                let error_msg := boto_exception err in
                if contains "must detach all policies first" error_msg
                then fail_json_on module (Some changed) (managed_policies_msg name)
                else fail_json_on module (Some changed) (to_str err))
             (fun _ => ret true)
         else ret changed)
      (fun _ => ret true);
  ret (changed, name).

(** The handler of [update_group] reports the value [changed] has when the
    fault is raised; each call is therefore guarded with the value current
    at that call. *)
Definition update_group (module : option unit) (name new_name new_path : option string)
  : M (bool * option string * option string * string) :=
  let changed := false in
  let guarded {A} (changed : bool) (m : M A) : M A :=
    try_boto m (fun err => fail_json_on module (Some changed) (to_str err)) in
  do current_group_path <- guarded changed (call (GetGroup name));
  do changed <-
    (if truthy new_path then
       if py_ne (Some current_group_path) new_path then
         do _ <- guarded changed (call (UpdateGroup name None new_path));
         ret true
       else ret changed
     else ret changed);
  do (changed, name) <-
    (if truthy new_name then
       if py_ne name new_name then
         do _ <- guarded changed (call (UpdateGroup name new_name new_path));
         ret (true, new_name)
       else ret (changed, name)
     else ret (changed, name));
  ret (changed, name, new_path, current_group_path).

(** *** Roles *)

(** The handler of [create_role] reports [changed], which is set before the
    first call of the branch that can fault. *)
Definition create_role (name path : option string) (role_list prof_list : list string)
  : M (bool * list string) :=
  let changed := false in
  let guarded {A} (changed : bool) (m : M A) : M A :=
    try_boto m (fun err => fail_json (Some changed) (to_str err)) in
  do changed <-
    (if negb (name_in name role_list) then
       let changed := true in
       guarded changed
         (do _ <- call (CreateRole name path);
          do _ <- when (negb (name_in name prof_list))
                    (do _ <- call (CreateInstanceProfile name path);
                     call (AddRoleToInstanceProfile name name));
          ret changed)
     else ret changed);
  do updated_role_list <- call ListRoles;
  ret (changed, updated_role_list).

(** As in [update_group], the outer handler reports the value of [changed]
    at the fault: [False] throughout the removal of the role, and the
    result of the removal while the instance profiles are visited. *)
Definition delete_role (name : option string) (role_list prof_list : list string)
  : M (bool * list string) :=
  let changed := false in
  let guarded {A} (changed : bool) (m : M A) : M A :=
    try_boto m (fun err => fail_json (Some changed) (to_str err)) in
  do changed <-
    guarded changed
      (if name_in name role_list then
         do cur_ins_prof <- call (ListInstanceProfilesForRole name);
         do _ <- for_each cur_ins_prof (fun profile =>
                   call (RemoveRoleFromInstanceProfile profile name));
         try_boto_else
           (call (DeleteRole name))
           (fun err =>
              let error_msg := boto_exception err in
              do _ <- when (contains "must detach all policies first" error_msg)
                        (do policy_names <- call (ListRolePolicies name);
                         for_each policy_names (fun policy =>
                           call (DeleteRolePolicy name policy)));
              try_boto_else
                (call (DeleteRole name))
                (fun err =>
                   let error_msg := boto_exception err in
                   if contains "must detach all policies first" error_msg
                   then fail_json (Some changed) (managed_policies_msg name)
                   else fail_json (Some changed) (to_str err))
                (fun _ => ret true))
           (fun _ => ret true)
       else ret changed);
  do _ <- guarded changed
            (for_each prof_list (fun prof =>
               when (bool_decide (name = Some prof))
                    (call (DeleteInstanceProfile name))));
  do updated_role_list <- call ListRoles;
  ret (changed, updated_role_list).

(** *** [main] *)

Inductive IamType := user | group | role.
Inductive State := present | absent | update.

#[global] Instance IamType_eq_dec : EqDecision IamType.
Proof. solve_decision. Defined.
#[global] Instance State_eq_dec : EqDecision State.
Proof. solve_decision. Defined.

(** [module.params] after the host's argument parsing: [iam_type] and
    [state] are restricted to their lower-case choices. *)
Record Params := mkParams {
  iam_type : IamType;
  groups : option (list string);
  state : State;
  password : option string;
  update_password : string;
  access_key_state : option string;
  access_key_ids : option (list string);
  key_count : Z;
  name : option string;
  new_name : option string;
  path : option string;
  new_path : option string
}.

(** The inventory snapshot taken by [main] before it dispatches. *)
Definition inventory : M (list string * list string * list string * list string) :=
  try_boto
    (do orig_group_list <- call GetAllGroups;
     do orig_user_list <- call GetAllUsers;
     do orig_role_list <- call ListRoles;
     do orig_prof_list <- call ListInstanceProfiles;
     ret (orig_group_list, orig_user_list, orig_role_list, orig_prof_list))
    (fun err => fail_json None (message err)).

Definition vbool (b : bool) : PyVal := VBool b.
Definition vopt_strs (o : option (list string)) : PyVal :=
  match o with Some l => vstrs l | None => VNone end.
Definition vdict (d : gmap string string) : PyVal :=
  VDict (map (fun kv => (kv.1, VStr kv.2)) (map_to_list d)).

Definition main_user (p : Params) (key_state : option string)
    (key_ids : option (list string)) (orig_user_list : list string) : M unit :=
  let name := name p in
  let new_name := new_name p in
  let groups := groups p in
  let password := password p in
  let changed := false in
  let been_updated := false in
  let user_groups : option (list string) := None in
  let user_exists :=
    existsb (fun n => bool_decide (Some n ∈ [name; new_name])) orig_user_list in
  do (path, new_path) <-
    (if user_exists then
       do current_path <- call (GetUser name);
       if negb (truthy (new_path p)) && py_ne (Some current_path) (path p)
       then ret (Some current_path, path p)
       else ret (path p, new_path p)
     else ret (path p, new_path p));
  if bool_decide (state p = present) && negb user_exists && negb (truthy new_name) then
    do (meta, changed) <-
      create_user name password path key_state (key_count p);
    do keys <- call (GetAllAccessKeys name);
    do (user_groups, changed) <-
      (if truthy_list groups then
         do r <- set_users_groups name (default [] groups) been_updated new_name;
         ret (Some r.1, r.2)
       else ret (user_groups, changed));
    exit_json (vbool changed)
      [("user_meta", VDict meta); ("groups", vopt_strs user_groups); ("keys", vkeys keys)]
  else if bool_decide (state p ∈ [present; update]) && user_exists then
    let password :=
      if String.eqb (update_password p) "on_create" then None else password in
    let been_updated :=
      if negb (name_in name orig_user_list) && name_in new_name orig_user_list
      then true else been_updated in
    do (name_change, key_list, user_changed) <-
      update_user name new_name new_path key_state (key_count p) key_ids password
        been_updated;
    let (orig_name, name) :=
      if name_change && truthy new_name then (Some name, new_name) else (None, name) in
    do (user_groups, changed) <-
      (if truthy_list groups then
         do r <- set_users_groups name (default [] groups) been_updated new_name;
         let groups_changed := r.2 in
         ret (Some r.1,
              if Bool.eqb groups_changed user_changed then groups_changed else true)
       else ret (user_groups, user_changed));
    if truthy new_name && truthy new_path then
      do orig_name <- read_local "orig_name" orig_name;
      exit_json (vbool changed)
        [("groups", vopt_strs user_groups); ("old_user_name", vstr orig_name);
         ("new_user_name", vstr new_name); ("old_path", vstr path);
         ("new_path", vstr new_path); ("keys", vdict key_list)]
    else if truthy new_name && negb (truthy new_path) && negb been_updated then
      do orig_name <- read_local "orig_name" orig_name;
      exit_json (vbool changed)
        [("groups", vopt_strs user_groups); ("old_user_name", vstr orig_name);
         ("new_user_name", vstr new_name); ("keys", vdict key_list)]
    else if truthy new_name && negb (truthy new_path) && been_updated then
      exit_json (vbool changed)
        [("groups", vopt_strs user_groups); ("user_name", vstr new_name);
         ("keys", vdict key_list); ("key_state", vstr key_state)]
    else if negb (truthy new_name) && truthy new_path then
      exit_json (vbool changed)
        [("groups", vopt_strs user_groups); ("user_name", vstr name);
         ("old_path", vstr path); ("new_path", vstr new_path);
         ("keys", vdict key_list)]
    else
      exit_json (vbool changed)
        [("groups", vopt_strs user_groups); ("user_name", vstr name);
         ("keys", vdict key_list)]
  else if bool_decide (state p = update) && negb user_exists then
    fail_json None ("The user " +:+ fmt name +:+ " does not exit. No update made.")
  else if bool_decide (state p = absent) then
    if user_exists then
      try_exception
        (do _ <- set_users_groups name [] false None;
         do (del_meta, name, changed) <- delete_user name;
         exit_json (vbool changed) [("deleted_user", vstr name)])
        (fun ex => fail_json (Some changed) (str_exn ex))
    else
      exit_json (VBool false)
        [("msg", VStr ("User " +:+ fmt name +:+ " is already absent from your AWS IAM users"))]
  else ret tt.

Definition main_group (p : Params) (orig_group_list : list string) : M unit :=
  let name := name p in
  let new_name := new_name p in
  let new_path := new_path p in
  let changed := false in
  let group_exists := name_in name orig_group_list in
  if bool_decide (state p = present) && negb group_exists then
    do (new_group, changed) <- create_group None name (path p);
    exit_json (vbool changed) [("group_name", vstr new_group)]
  else if bool_decide (state p ∈ [present; update]) && group_exists then
    do (changed, updated_name, updated_path, cur_path) <-
      update_group None name new_name new_path;
    if truthy new_path && truthy new_name then
      exit_json (vbool changed)
        [("old_group_name", vstr name); ("new_group_name", vstr updated_name);
         ("old_path", VStr cur_path); ("new_group_path", vstr updated_path)]
    else if truthy new_path && negb (truthy new_name) then
      exit_json (vbool changed)
        [("group_name", vstr name); ("old_path", VStr cur_path);
         ("new_group_path", vstr updated_path)]
    else if negb (truthy new_path) && truthy new_name then
      exit_json (vbool changed)
        [("old_group_name", vstr name); ("new_group_name", vstr updated_name);
         ("group_path", VStr cur_path)]
    else
      exit_json (vbool changed)
        [("group_name", vstr name); ("group_path", VStr cur_path)]
  else if bool_decide (state p = update) && negb group_exists then
    fail_json (Some changed)
      ("Update Failed. Group " +:+ fmt name +:+ " doesn't seem to exit!")
  else if bool_decide (state p = absent) then
    if name_in name orig_group_list then
      (* delete_group returns (changed, name); main unpacks it as
         removed_group, changed *)
      do (removed_group, changed) <- delete_group None name;
      exit_json (vstr changed) [("delete_group", vbool removed_group)]
    else
      exit_json (vbool changed) [("msg", VStr "Group already absent")]
  else ret tt.

Definition main_role (p : Params) (orig_role_list orig_prof_list : list string)
  : M unit :=
  do (changed, role_list) <-
    match state p with
    | present => create_role (name p) (path p) orig_role_list orig_prof_list
    | absent => delete_role (name p) orig_role_list orig_prof_list
    | update =>
        fail_json (Some false) "Role update not currently supported by boto."
    end;
  exit_json (vbool changed) [("roles", vstrs role_list)].

(** [module.params.get('access_key_id')]: the argument spec declares
    [access_key_ids] only, so this lookup yields [None]. *)
Definition params_get_access_key_id (p : Params) : option string := None.

(** [main], from the reading of the parameters on; the connection the host
    hands over is the provider of the monad. *)
Definition main (p : Params) : M unit :=
  let key_state := access_key_state p in
  do key_state <-
    (if truthy key_state then
       let key_state := lower (default "" key_state) in
       do _ <-
         (if existsb (fun n => contains n key_state) ["active"; "inactive"] then
            (* key_ids is bound by the assignment that follows this block *)
            do key_ids <- read_local "key_ids" (@None (option (list string)));
            when (negb (truthy_list key_ids))
              (fail_json (Some false)
                 ("At least one access key has to be defined in order" +:+
                  " to use 'active' or 'inactive'"))
          else ret tt);
       ret (Some key_state)
     else ret key_state);
  let key_ids := access_key_ids p in
  do pwd <-
    (if bool_decide (iam_type p = user) && bool_decide (password p <> None) then
       ret (password p)
     else if bool_decide (iam_type p <> user) && bool_decide (password p <> None) then
       fail_json None
         ("a password is being specified when the iam_type " +:+
          "is not user. Check parameters")
     else ret None);
  do _ <-
    when (bool_decide (iam_type p <> user) &&
          (bool_decide (access_key_state p <> None) ||
           bool_decide (params_get_access_key_id p <> None)))
      (fail_json None
         ("the IAM type must be user, when IAM access keys " +:+
          "are being modified. Check parameters"));
  do _ <-
    when (bool_decide (iam_type p = role) && bool_decide (state p = update))
      (fail_json (Some false)
         ("iam_type: role, cannot currently be updated, " +:+
          "please specificy present or absent"));
  do (orig_group_list, orig_user_list, orig_role_list, orig_prof_list) <- inventory;
  match iam_type p with
  | user => main_user p key_state key_ids orig_user_list
  | group => main_group p orig_group_list
  | role => main_role p orig_role_list orig_prof_list
  end.

(** Running an invocation against a provider, from an empty trace. *)
Definition run {A} (m : M A) (iam : Provider) : Res A * Trace := m iam [].

(** ** Scripted providers *)

(** A response that carries no information: the empty listing, the empty
    string, [()]. *)
Definition default_resp (c : Call) : resp c :=
  match c return resp c with
  | GetAllGroups | GetAllUsers | ListRoles | ListInstanceProfiles => []
  | GetAllUserPolicies _ | GetGroupsForUser _ | GetAllGroupPolicies _
  | ListRolePolicies _ | ListInstanceProfilesForRole _ => []
  | GetAllAccessKeys _ => []
  | GetUser _ | GetGroup _ => "/"
  | CreateAccessKey _ => "AKIANEW"
  | _ => tt
  end.

(** The provider on which every call succeeds with [default_resp]. *)
Definition quiet : Provider := fun _ c => Ok (default_resp c).

(** A fault with the same text in all three renderings. *)
Definition fault_of (msg : string) : BotoServerError :=
  mkBotoServerError msg msg msg.

(** ** A weakest-precondition calculus over traces

    [wp iam t m Qr Qs]: run from trace [t] against [iam], the computation
    [m] extends the trace by some [tr]; if it returns [a] then [Qr a tr],
    and if it is left through [s] then [Qs s tr]. *)

Definition wp {A} (iam : Provider) (t : Trace) (m : M A)
    (Qr : A -> Trace -> Prop) (Qs : Abort -> Trace -> Prop) : Prop :=
  match m iam t with
  | (Ret a, t') => exists tr, t' = t ++ tr /\ Qr a tr
  | (Abrupt s, t') => exists tr, t' = t ++ tr /\ Qs s tr
  end.

(** A postcondition read after the calls [tr] have already been issued. *)
Definition after {X} (tr : Trace) (Q : X -> Trace -> Prop) : X -> Trace -> Prop :=
  fun x tr' => Q x (tr ++ tr').


(** ** Accounts and requests used in the examples *)

Definition must_detach : BotoServerError :=
  fault_of "Cannot delete entity, must detach all policies first.".

Definition no_login_profile : BotoServerError :=
  fault_of "Cannot find Login Profile for User bob".

(** The user [bob] with two inline policies and no login profile: the
    provider refuses [delete_user] until both policies have been deleted. *)
Definition bob_with_inline_policies : Provider := fun t c =>
  match c return Boto (resp c) with
  | GetAllUsers => Ok ["bob"]
  | GetLoginProfiles _ => Fault no_login_profile
  | GetAllUserPolicies _ => Ok ["p1"; "p2"]
  | DeleteUser n =>
      if bool_decide (DeleteUserPolicy n "p1" ∈ t) &&
         bool_decide (DeleteUserPolicy n "p2" ∈ t)
      then Ok tt else Fault must_detach
  | c' => Ok (default_resp c')
  end.

(** The user [bob] with a login profile and nothing else. *)
Definition bob_with_login : Provider := fun t c =>
  match c return Boto (resp c) with
  | GetAllUsers => Ok ["bob"]
  | c' => Ok (default_resp c')
  end.

Definition absent_bob : Params :=
  mkParams user None absent None "always" None None 1 (Some "bob") None (Some "/") None.

(** The user [bob] holding the access keys [ks]; as the real service does,
    the provider accepts only the statuses [Active] and [Inactive] in
    [update_access_key]. *)
Definition bob_keys (ks : list (string * string)) : Provider := fun t c =>
  match c return Boto (resp c) with
  | GetAllUsers => Ok ["bob"]
  | GetAllAccessKeys _ => Ok ks
  | UpdateAccessKey _ st _ =>
      if bool_decide (st ∈ ["Active"; "Inactive"]) then Ok tt
      else Fault (fault_of "Value at 'status' failed to satisfy constraint")
  | c' => Ok (default_resp c')
  end.

Definition remove_k1 : Params :=
  mkParams user None update None "always" (Some "remove") (Some ["K1"]) 1
    (Some "bob") None (Some "/") None.

(** The user [bob] in no group; the caller may not add users to [g1]. *)
Definition bob_denied_g1 : Provider := fun t c =>
  match c return Boto (resp c) with
  | GetAllUsers => Ok ["bob"]
  | AddUserToGroup "g1" _ =>
      Fault (fault_of "User is not authorized to perform iam:AddUserToGroup")
  | c' => Ok (default_resp c')
  end.

Definition bob_into_g1_g2 : Params :=
  mkParams user (Some ["g1"; "g2"]) present None "always" None None 1
    (Some "bob") None (Some "/") None.

(** An account in which [old] has been renamed to [new]: the user listing is
    [inv], and nothing is found under [old] any more. *)
Definition renamed (inv : list string) : Provider := fun t c =>
  match c return Boto (resp c) with
  | GetAllUsers => Ok inv
  | GetUser (Some "old") | GetAllAccessKeys (Some "old") =>
      Fault (fault_of "The user with name old cannot be found.")
  | c' => Ok (default_resp c')
  end.

(** An account that lists [inv] and answers every other call. *)
Definition listing (inv : list string) : Provider := fun t c =>
  match c return Boto (resp c) with
  | GetAllUsers => Ok inv
  | c' => Ok (default_resp c')
  end.

Definition rename_old_new : Params :=
  mkParams user None update None "always" None None 1
    (Some "old") (Some "new") (Some "/") None.

(** The same update with the path the user already has given as [new_path]. *)
Definition rename_old_new_at_root : Params :=
  mkParams user None update None "always" None None 1
    (Some "old") (Some "new") (Some "/") (Some "/").

Definition inventory_calls : Trace :=
  [GetAllGroups; GetAllUsers; ListRoles; ListInstanceProfiles].

(** ** Group membership as the provider keeps it *)

(** The groups of [who] after the calls [tr], from the groups [C] before
    them. *)
Definition membership_after (who : option string) (tr : Trace) (C : gset string)
  : gset string :=
  foldl (fun S c =>
           match c with
           | AddUserToGroup g n => if bool_decide (n = who) then S ∪ {[g]} else S
           | RemoveUserFromGroup g n => if bool_decide (n = who) then S ∖ {[g]} else S
           | _ => S
           end) C tr.

(** The user [bob] in the groups [a] and [b]. *)
Definition bob_in_a_b : Provider := fun t c =>
  match c return Boto (resp c) with
  | GetGroupsForUser _ => Ok ["a"; "b"]
  | c' => Ok (default_resp c')
  end.

(** ** Read-only and mutating calls *)

Definition mutating (c : Call) : bool :=
  match c with
  | GetAllGroups | GetAllUsers | ListRoles | ListInstanceProfiles
  | GetUser _ | GetAllUserPolicies _ | GetLoginProfiles _ | GetAllAccessKeys _
  | GetGroupsForUser _ | GetGroup _ | GetAllGroupPolicies _
  | ListRolePolicies _ | ListInstanceProfilesForRole _ => false
  | _ => true
  end.

(** The provider answers every call without a fault. *)
Definition fault_free (iam : Provider) : Prop :=
  forall t c, exists v, iam t c = Ok v.

(** The listed resource the request is about is not in the inventory. *)
Definition not_in_inventory (p : Params) (gl ul rl : list string) : Prop :=
  match iam_type p with
  | user => forall n, n ∈ ul -> Some n <> name p /\ Some n <> new_name p
  | group => name_in (name p) gl = false
  | role => name_in (name p) rl = false
  end.

(** Absent-on-missing as the specification words it, read generously: the
    invocation exits unchanged and no mutating call follows the inventory
    snapshot. *)
Definition absent_on_missing_spec (iam : Provider) (p : Params) : Prop :=
  forall gl ul rl pl,
    inventory iam [] = (Ret (gl, ul, rl, pl), inventory_calls) ->
    not_in_inventory p gl ul rl ->
    exists fields tr,
      run (main p) iam
        = (Abrupt (ExitJson (VBool false) fields), inventory_calls ++ tr) /\
      Forall (fun c => mutating c = false) tr.

(** No role [r1], but an instance profile of that name. *)
Definition orphan_profile_r1 : Provider := fun t c =>
  match c return Boto (resp c) with
  | ListInstanceProfiles => Ok ["r1"]
  | c' => Ok (default_resp c')
  end.

Definition absent_of (ty : IamType) (n : string) : Params :=
  mkParams ty None absent None "always" None None 1 (Some n) None (Some "/") None.

(** An absent request for the user [ghost] that also carries a password, a
    key directive and a key id. *)
Definition absent_ghost_keys : Params :=
  mkParams user None absent (Some "s3cret") "always" (Some "Remove") (Some ["K1"]) 1
    (Some "ghost") None (Some "/") None.

(** How many entries of the profile list [pl] equal the role name [n]. *)
Definition same_name_profiles (n : option string) (pl : list string) : nat :=
  length (List.filter (fun prof => bool_decide (n = Some prof)) pl).

(** ** The parameter checks of [main] *)

(** [key_state] as [main] hands it on: lower-cased when it is set. *)
Definition lowered_key_state (p : Params) : option string :=
  if truthy (access_key_state p)
  then Some (lower (default "" (access_key_state p)))
  else access_key_state p.

(** The directive mentions [active] or [inactive]. *)
Definition names_activation (p : Params) : bool :=
  truthy (access_key_state p) &&
  existsb (fun n => contains n (lower (default "" (access_key_state p))))
    ["active"; "inactive"].


(** ** Failures and the changed flag *)

(** [tr], issued from the trace [t], ends with a call that the provider
    refused, and that call satisfies [P]: nothing was issued after the
    fault. *)
Definition ends_in_fault (iam : Provider) (t tr : Trace) (P : Call -> Prop) : Prop :=
  exists pre c err, tr = pre ++ [c] /\ iam (t ++ pre) c = Fault err /\ P c.

(** A [get_all_access_keys] call. *)
Definition is_key_listing (c : Call) : Prop := exists n, c = GetAllAccessKeys n.

(** How a stage of [update_user] between the first and the last key listing
    may be left: a failure follows the fault of a call that is not a key
    listing and does not report [changed=True]. *)
Definition mid_fail (iam : Provider) (t : Trace) (s : Abort) (tr : Trace) : Prop :=
  match s with
  | FailJson c _ =>
      ends_in_fault iam t tr (fun call => ~ is_key_listing call /\ c <> Some true)
  | Raise (BotoErr _) => ends_in_fault iam t tr (fun call => ~ is_key_listing call)
  | _ => True
  end.

(** From the flag [ch], [m] returns the flag [ch || a mutating call was
    issued]. *)
Definition tracks {A} (iam : Provider) (m : M A) (flag : A -> bool) (ch : bool) : Prop :=
  forall t,
    wp iam t m (fun a tr => flag a = ch || existsb mutating tr) (mid_fail iam t).

(** How [update_user] may fail: the fault is that of the last call; a fault
    of a key listing reports whether a mutating call was issued before it,
    and any other fault never reports [changed=True]. *)
Definition final_fail (iam : Provider) (t : Trace) (s : Abort) (tr : Trace) : Prop :=
  match s with
  | FailJson c _ =>
      exists pre call err,
        tr = pre ++ [call] /\ iam (t ++ pre) call = Fault err /\
        (is_key_listing call -> c = Some (existsb mutating pre)) /\
        (~ is_key_listing call -> c <> Some true)
  | _ => True
  end.

(** A mutating call of [tr] that the provider accepted. *)
Definition committed (iam : Provider) (tr : Trace) : Prop :=
  exists pre c post v, tr = pre ++ c :: post /\ mutating c = true /\ iam pre c = Ok v.

(** The failure surface as the specification words it: a failure that
    follows a committed mutating call reports [changed=True]. *)
Definition failure_reports_progress_spec {A} (iam : Provider) (m : M A) : Prop :=
  forall c msg tr,
    run m iam = (Abrupt (FailJson c msg), tr) -> committed iam tr -> c = Some true.

(** The user [bob]; once he has been renamed to [robert], no access key can
    be created under the old name. *)
Definition bob_renamed_midway : Provider := fun t c =>
  match c return Boto (resp c) with
  | GetAllUsers => Ok ["bob"]
  | CreateAccessKey (Some "bob") =>
      if bool_decide (UpdateUser (Some "bob") (Some "robert") None ∈ t)
      then Fault (fault_of "The user with name bob cannot be found.")
      else Ok "AKIANEW"
  | c' => Ok (default_resp c')
  end.

Definition rename_and_key : Params :=
  mkParams user None update None "always" (Some "create") None 1
    (Some "bob") (Some "robert") (Some "/") None.

(** The user [bob] with no key; once a key has been created for him, the
    provider throttles the key listings. *)
Definition bob_throttled_after_key : Provider := fun t c =>
  match c return Boto (resp c) with
  | GetAllUsers => Ok ["bob"]
  | GetAllAccessKeys n =>
      if bool_decide (CreateAccessKey n ∈ t) then Fault (fault_of "Rate exceeded")
      else Ok []
  | c' => Ok (default_resp c')
  end.

(** The group [ops]; the name [sre] is taken, so that the rename is refused
    while a move alone is accepted. *)
Definition ops_rename_refused : Provider := fun t c =>
  match c return Boto (resp c) with
  | GetAllGroups => Ok ["ops"; "sre"]
  | UpdateGroup _ (Some _) _ => Fault (fault_of "Group with name sre already exists.")
  | c' => Ok (default_resp c')
  end.

(** ** Counting key calls *)

Definition is_create_key (c : Call) : bool :=
  match c with CreateAccessKey _ => true | _ => false end.

Definition is_delete_key (c : Call) : bool :=
  match c with DeleteAccessKey _ _ => true | _ => false end.

Definition is_policy_call (c : Call) : bool :=
  match c with GetAllUserPolicies _ | DeleteUserPolicy _ _ => true | _ => false end.

Definition is_delete_user (c : Call) : bool :=
  match c with DeleteUser _ => true | _ => false end.

Definition count_calls (f : Call -> bool) (tr : Trace) : nat :=
  length (List.filter f tr).

(** Against [iam], from any trace, [m] returns a value satisfying [P] after
    [n] key creations and no key deletion. *)
Definition creates {A} (iam : Provider) (m : M A) (n : nat) (P : A -> Prop) : Prop :=
  forall t,
    wp iam t m
      (fun a tr => P a /\ count_calls is_create_key tr = n /\
                   count_calls is_delete_key tr = O)
      (fun _ _ => False).


(** The user [bob] holding the access keys [ks], on a provider that accepts
    every call. *)
Definition bob_holding (ks : list (string * string)) : Provider := fun t c =>
  match c return Boto (resp c) with
  | GetAllUsers => Ok ["bob"]
  | GetAllAccessKeys _ => Ok ks
  | c' => Ok (default_resp c')
  end.

(** ** Present on an account that already matches *)










Definition present_bob_one_key : Params :=
  mkParams user None present None "always" (Some "create") None 1
    (Some "bob") None (Some "/") None.

(** The group [ops] at the root path. *)
Definition group_ops : Provider := fun t c =>
  match c return Boto (resp c) with
  | GetAllGroups => Ok ["ops"]
  | c' => Ok (default_resp c')
  end.

(** The role [r1]. *)
Definition role_r1 : Provider := fun t c =>
  match c return Boto (resp c) with
  | ListRoles => Ok ["r1"]
  | c' => Ok (default_resp c')
  end.

Definition present_of (ty : IamType) (n : string) : Params :=
  mkParams ty None present None "always" None None 1 (Some n) None (Some "/") None.

(** ** What a computation issues and how it is left *)

(** [m] issues only calls that satisfy [P], however it ends. *)
Definition only {A} (P : Call -> Prop) (iam : Provider) (m : M A) : Prop :=
  forall t, wp iam t m (fun _ tr => Forall P tr) (fun _ tr => Forall P tr).

Definition is_login_call (c : Call) : bool :=
  match c with
  | CreateLoginProfile _ _ | UpdateLoginProfile _ _ => true
  | _ => false
  end.

(** The user a call is addressed to. *)
Definition about (n : option string) (c : Call) : Prop :=
  match c with
  | GetUser m | UpdateUser m _ _ | GetAllAccessKeys m | CreateAccessKey m
  | UpdateLoginProfile m _ | CreateLoginProfile m _
  | UpdateAccessKey _ _ m | DeleteAccessKey _ m => m = n
  | _ => False
  end.

Definition fault_last (iam : Provider) (t : Trace) (wrap : BotoServerError -> Abort)
    (s : Abort) (tr : Trace) : Prop :=
  exists pre c err, tr = pre ++ [c] /\ iam (t ++ pre) c = Fault err /\ s = wrap err.

Definition raising {A} (iam : Provider) (m : M A) : Prop :=
  forall t, wp iam t m (fun _ _ => True) (fault_last iam t (fun err => Raise (BotoErr err))).

Definition no_module : string := "'NoneType' object has no attribute 'fail_json'".

(** How the group branch may be left: never through [fail_json] with a
    provider fault behind it. *)
Definition crash_ok (iam : Provider) (t : Trace) (s : Abort) (tr : Trace) : Prop :=
  match s with
  | FailJson _ _ => False
  | ExitJson _ _ => True
  | Raise ex =>
      exists pre c err,
        tr = pre ++ [c] /\ iam (t ++ pre) c = Fault err /\
        (ex = BotoErr err \/ ex = AttributeError no_module)
  end.

Definition crashing {A} (iam : Provider) (m : M A) : Prop :=
  forall t, wp iam t m (fun _ _ => True) (crash_ok iam t).

Definition crashing_after {A} (iam : Provider) (m : M A) : Prop :=
  forall t tr1,
    (exists pre c err, tr1 = pre ++ [c] /\ iam (t ++ pre) c = Fault err) ->
    wp iam (t ++ tr1) m (fun _ _ => True) (after tr1 (crash_ok iam t)).

(** ** Further accounts and requests used in the examples *)

(** The user [bob] with two access keys and no login profile. *)
Definition bob_two_keys : Provider := fun t c =>
  match c return Boto (resp c) with
  | GetAllUsers => Ok ["bob"]
  | GetAllAccessKeys _ => Ok [("K1", "Active"); ("K2", "Inactive")]
  | GetLoginProfiles _ => Fault no_login_profile
  | c' => Ok (default_resp c')
  end.

Definition weak_password : BotoServerError :=
  fault_of "Password does not conform to the account password policy.".

(** The account's password policy refuses every password offered. *)
Definition strict_password_policy : Provider := fun t c =>
  match c return Boto (resp c) with
  | GetAllUsers => Ok ["bob"]
  | CreateLoginProfile _ _ | UpdateLoginProfile _ _ => Fault weak_password
  | c' => Ok (default_resp c')
  end.

(** The user [bob] in the group [a]; the caller may not change memberships. *)
Definition bob_in_a_frozen : Provider := fun t c =>
  match c return Boto (resp c) with
  | GetGroupsForUser _ => Ok ["a"]
  | AddUserToGroup _ _ | RemoveUserFromGroup _ _ =>
      Fault (fault_of "User is not authorized to perform iam:AddUserToGroup")
  | c' => Ok (default_resp c')
  end.

(** The user [bob] in no group, on an account that has no group [g2]. *)
Definition no_group_g2 : Provider := fun t c =>
  match c return Boto (resp c) with
  | AddUserToGroup "g2" _ => Fault (fault_of "The group with name g2 cannot be found.")
  | c' => Ok (default_resp c')
  end.

(** The group [ops] with two inline policies: the provider refuses
    [delete_group] until both have been deleted. *)
Definition ops_with_inline_policies : Provider := fun t c =>
  match c return Boto (resp c) with
  | GetAllGroups => Ok ["ops"]
  | GetAllGroupPolicies _ => Ok ["q1"; "q2"]
  | DeleteGroup n =>
      if bool_decide (DeleteGroupPolicy n "q1" ∈ t) &&
         bool_decide (DeleteGroupPolicy n "q2" ∈ t)
      then Ok tt else Fault must_detach
  | c' => Ok (default_resp c')
  end.

(** The group [ops] with members: it cannot be deleted. *)
Definition ops_with_members : Provider := fun t c =>
  match c return Boto (resp c) with
  | GetAllGroups => Ok ["ops"]
  | DeleteGroup _ =>
      Fault (fault_of "Cannot delete entity, must remove users from group first.")
  | c' => Ok (default_resp c')
  end.

(** The caller may not create groups. *)
Definition create_group_denied : Provider := fun t c =>
  match c return Boto (resp c) with
  | CreateGroup _ _ =>
      Fault (fault_of "User is not authorized to perform iam:CreateGroup")
  | c' => Ok (default_resp c')
  end.

(** The role [r1], in the instance profiles [web] and [r1]. *)
Definition role_r1_in_profiles : Provider := fun t c =>
  match c return Boto (resp c) with
  | ListRoles => Ok (if bool_decide (DeleteRole (Some "r1") ∈ t) then [] else ["r1"])
  | ListInstanceProfiles => Ok ["web"; "r1"]
  | ListInstanceProfilesForRole _ => Ok ["web"; "r1"]
  | c' => Ok (default_resp c')
  end.

(** An account on which [r1] is listed among the roles once it has been
    created. *)
Definition role_r1_once_created : Provider := fun t c =>
  match c return Boto (resp c) with
  | ListRoles =>
      Ok (if existsb (fun c' => bool_decide (c' = CreateRole (Some "r1") (Some "/"))) t
          then ["r1"] else [])
  | c' => Ok (default_resp c')
  end.

(** The role [r1], whose first removal is throttled. *)
Definition role_r1_throttled : Provider := fun t c =>
  match c return Boto (resp c) with
  | ListRoles => Ok ["r1"]
  | DeleteRole n =>
      if bool_decide (DeleteRole n ∈ t) then Ok tt
      else Fault (fault_of "Rate exceeded")
  | c' => Ok (default_resp c')
  end.

(** The account has reached its quota of instance profiles. *)
Definition profile_quota_reached : Provider := fun t c =>
  match c return Boto (resp c) with
  | CreateInstanceProfile _ _ =>
      Fault (fault_of "Cannot exceed quota for InstanceProfilesPerAccount: 100")
  | c' => Ok (default_resp c')
  end.

Definition update_of (ty : IamType) (n : string) : Params :=
  mkParams ty None update None "always" None None 1 (Some n) None (Some "/") None.

Definition present_bob_as_robert : Params :=
  mkParams user None present None "always" None None 1
    (Some "bob") (Some "robert") (Some "/") None.

Definition present_bob_on_create : Params :=
  mkParams user (Some ["a"]) present (Some "s3cret") "on_create" (Some "create") None 1
    (Some "bob") None (Some "/") None.

Definition group_with_password : Params :=
  mkParams group None present (Some "s3cret") "always" None None 1
    (Some "ops") None (Some "/") None.
Section WpRules.
Context (iam : Provider).
Implicit Types t tr : Trace.

Lemma wp_mono {A} t (m : M A) (Qr Qr' : A -> Trace -> Prop) Qs Qs' :
  wp iam t m Qr Qs ->
  (forall a tr, Qr a tr -> Qr' a tr) ->
  (forall s tr, Qs s tr -> Qs' s tr) ->
  wp iam t m Qr' Qs'.
Proof.
  unfold wp. destruct (m iam t) as [[a|s] t']; intros (tr & -> & H) Hr Hs;
    exists tr; auto.
Qed.

Lemma wp_ret {A} t (a : A) (Qr : A -> Trace -> Prop) Qs :
  Qr a [] -> wp iam t (ret a) Qr Qs.
Proof. intros H. exists []. by rewrite app_nil_r. Qed.

Lemma wp_abort {A} t s (Qr : A -> Trace -> Prop) (Qs : Abort -> Trace -> Prop) :
  Qs s [] -> wp iam t (abort s) Qr Qs.
Proof. intros H. exists []. by rewrite app_nil_r. Qed.

Lemma wp_fail_json {A} t c msg (Qr : A -> Trace -> Prop) (Qs : Abort -> Trace -> Prop) :
  Qs (FailJson c msg) [] -> wp iam t (fail_json c msg) Qr Qs.
Proof. apply wp_abort. Qed.

Lemma wp_exit_json {A} t c f (Qr : A -> Trace -> Prop) (Qs : Abort -> Trace -> Prop) :
  Qs (ExitJson c f) [] -> wp iam t (exit_json c f) Qr Qs.
Proof. apply wp_abort. Qed.

Lemma wp_raise {A} t ex (Qr : A -> Trace -> Prop) (Qs : Abort -> Trace -> Prop) :
  Qs (Raise ex) [] -> wp iam t (raise ex) Qr Qs.
Proof. apply wp_abort. Qed.

Lemma wp_call t (c : Call) (Qr : resp c -> Trace -> Prop) Qs :
  (forall v, iam t c = Ok v -> Qr v [c]) ->
  (forall err, iam t c = Fault err -> Qs (Raise (BotoErr err)) [c]) ->
  wp iam t (call c) Qr Qs.
Proof.
  intros Hok Hf. unfold wp, call.
  destruct (iam t c) as [v|err]; exists [c]; auto.
Qed.

Lemma wp_bind {A B} t (m : M A) (k : A -> M B) (Qr : B -> Trace -> Prop) Qs :
  wp iam t m (fun a tr1 => wp iam (t ++ tr1) (k a) (after tr1 Qr) (after tr1 Qs)) Qs ->
  wp iam t (bind m k) Qr Qs.
Proof.
  unfold wp, bind, after. destruct (m iam t) as [[a|s] t1]; [|done].
  intros (tr1 & -> & H).
  destruct (k a iam (t ++ tr1)) as [[b|s] t2];
    destruct H as (tr2 & -> & H); exists (tr1 ++ tr2); by rewrite app_assoc.
Qed.

Lemma wp_try_boto_else {A B} t (body : M A) handler (orelse : A -> M B)
    (Qr : B -> Trace -> Prop) Qs :
  wp iam t body
    (fun a tr1 => wp iam (t ++ tr1) (orelse a) (after tr1 Qr) (after tr1 Qs))
    (fun s tr1 =>
       match s with
       | Raise (BotoErr err) =>
           wp iam (t ++ tr1) (handler err) (after tr1 Qr) (after tr1 Qs)
       | _ => Qs s tr1
       end) ->
  wp iam t (try_boto_else body handler orelse) Qr Qs.
Proof.
  unfold wp, try_boto_else, after. destruct (body iam t) as [[a|s] t1].
  - intros (tr1 & -> & H).
    destruct (orelse a iam (t ++ tr1)) as [[b|s] t2];
      destruct H as (tr2 & -> & H); exists (tr1 ++ tr2); by rewrite app_assoc.
  - intros (tr1 & -> & H). destruct s as [[err| |]| |]; try by exists tr1.
    destruct (handler err iam (t ++ tr1)) as [[b|s] t2];
      destruct H as (tr2 & -> & H); exists (tr1 ++ tr2); by rewrite app_assoc.
Qed.

Lemma wp_try_boto {A} t (body : M A) handler (Qr : A -> Trace -> Prop) Qs :
  wp iam t body Qr
    (fun s tr1 =>
       match s with
       | Raise (BotoErr err) =>
           wp iam (t ++ tr1) (handler err) (after tr1 Qr) (after tr1 Qs)
       | _ => Qs s tr1
       end) ->
  wp iam t (try_boto body handler) Qr Qs.
Proof.
  intros H. apply wp_try_boto_else. eapply wp_mono; [exact H| |done].
  intros a tr Ha. apply wp_ret. unfold after. by rewrite app_nil_r.
Qed.

Lemma wp_try_exception_else {A B} t (body : M A) handler (orelse : A -> M B)
    (Qr : B -> Trace -> Prop) Qs :
  wp iam t body
    (fun a tr1 => wp iam (t ++ tr1) (orelse a) (after tr1 Qr) (after tr1 Qs))
    (fun s tr1 =>
       match s with
       | Raise ex => wp iam (t ++ tr1) (handler ex) (after tr1 Qr) (after tr1 Qs)
       | _ => Qs s tr1
       end) ->
  wp iam t (try_exception_else body handler orelse) Qr Qs.
Proof.
  unfold wp, try_exception_else, after. destruct (body iam t) as [[a|s] t1].
  - intros (tr1 & -> & H).
    destruct (orelse a iam (t ++ tr1)) as [[b|s] t2];
      destruct H as (tr2 & -> & H); exists (tr1 ++ tr2); by rewrite app_assoc.
  - intros (tr1 & -> & H). destruct s as [ex| |]; try by exists tr1.
    destruct (handler ex iam (t ++ tr1)) as [[b|s] t2];
      destruct H as (tr2 & -> & H); exists (tr1 ++ tr2); by rewrite app_assoc.
Qed.

Lemma wp_try_exception {A} t (body : M A) handler (Qr : A -> Trace -> Prop) Qs :
  wp iam t body Qr
    (fun s tr1 =>
       match s with
       | Raise ex => wp iam (t ++ tr1) (handler ex) (after tr1 Qr) (after tr1 Qs)
       | _ => Qs s tr1
       end) ->
  wp iam t (try_exception body handler) Qr Qs.
Proof.
  intros H. apply wp_try_exception_else. eapply wp_mono; [exact H| |done].
  intros a tr Ha. apply wp_ret. unfold after. by rewrite app_nil_r.
Qed.

Lemma wp_when t b (m : M unit) (Qr : unit -> Trace -> Prop) Qs :
  (b = true -> wp iam t m Qr Qs) ->
  (b = false -> Qr tt []) ->
  wp iam t (when b m) Qr Qs.
Proof. destruct b; simpl; intros H1 H2; [auto | apply wp_ret; auto]. Qed.

Lemma wp_read_local {A} t var (v : option A) (Qr : A -> Trace -> Prop)
    (Qs : Abort -> Trace -> Prop) :
  (forall a, v = Some a -> Qr a []) ->
  (v = None -> Qs (Raise (UnboundLocalError var)) []) ->
  wp iam t (read_local var v) Qr Qs.
Proof.
  destruct v; simpl; intros H1 H2; [apply wp_ret | apply wp_raise]; auto.
Qed.

(** Loops: [I done acc tr] is the invariant after the elements [done] have
    been visited, the loop variable is [acc], and [tr] has been issued. *)
Lemma wp_for_fold {A S} (body : S -> A -> M S) (l : list A) :
  forall t (acc : S) (I : list A -> S -> Trace -> Prop) Qs,
    I [] acc [] ->
    (forall pre x post acc tr,
        l = pre ++ x :: post -> I pre acc tr ->
        wp iam (t ++ tr) (body acc x)
          (fun acc' tr' => I (pre ++ [x]) acc' (tr ++ tr')) (after tr Qs)) ->
    wp iam t (for_fold l acc body) (I l) Qs.
Proof.
  induction l as [|x r IH]; intros t acc I Qs H0 Hstep; simpl.
  - by apply wp_ret.
  - apply wp_bind.
    specialize (Hstep [] x r acc [] eq_refl H0) as Hx.
    rewrite app_nil_r in Hx.
    eapply wp_mono; [exact Hx| |by intros s tr Hs].
    intros acc' tr1 Hacc. simpl in Hacc.
    apply (IH (t ++ tr1) acc' (fun pre a tr => I (x :: pre) a (tr1 ++ tr)) (after tr1 Qs)).
    + by rewrite app_nil_r.
    + intros pre y post a tr -> HI.
      specialize (Hstep (x :: pre) y post a (tr1 ++ tr) eq_refl HI).
      rewrite app_assoc in Hstep.
      eapply wp_mono; [exact Hstep| |].
      * intros a' tr'. by rewrite app_assoc.
      * intros s tr'. unfold after. by rewrite app_assoc.
Qed.

Lemma wp_for_each {A} (body : A -> M unit) (l : list A) :
  forall t (I : list A -> Trace -> Prop) Qs,
    I [] [] ->
    (forall pre x post tr,
        l = pre ++ x :: post -> I pre tr ->
        wp iam (t ++ tr) (body x)
          (fun _ tr' => I (pre ++ [x]) (tr ++ tr')) (after tr Qs)) ->
    wp iam t (for_each l body) (fun _ => I l) Qs.
Proof.
  induction l as [|x r IH]; intros t I Qs H0 Hstep; simpl.
  - by apply wp_ret.
  - apply wp_bind.
    specialize (Hstep [] x r [] eq_refl H0) as Hx.
    rewrite app_nil_r in Hx.
    eapply wp_mono; [exact Hx| |by intros s tr Hs].
    intros [] tr1 Hacc. simpl in Hacc.
    apply (IH (t ++ tr1) (fun pre tr => I (x :: pre) (tr1 ++ tr)) (after tr1 Qs)).
    + by rewrite app_nil_r.
    + intros pre y post tr -> HI.
      specialize (Hstep (x :: pre) y post (tr1 ++ tr) eq_refl HI).
      rewrite app_assoc in Hstep.
      eapply wp_mono; [exact Hstep| |].
      * intros a' tr'. by rewrite app_assoc.
      * intros s tr'. unfold after. by rewrite app_assoc.
Qed.

(** [while]: [I n s tr] holds after [n] iterations. *)
Lemma wp_while_loop {S} (cond : S -> bool) (body : S -> M S) (fuel : nat) :
  forall t (s : S) (I : nat -> S -> Trace -> Prop) Qs,
    I O s [] ->
    (forall n s tr,
        (n < fuel)%nat -> I n s tr -> cond s = true ->
        wp iam (t ++ tr) (body s)
          (fun s' tr' => I (Datatypes.S n) s' (tr ++ tr')) (after tr Qs)) ->
    wp iam t (while_loop fuel cond body s)
      (fun s' tr => exists n, (n <= fuel)%nat /\ I n s' tr /\
                              (cond s' = true -> n = fuel)) Qs.
Proof.
  induction fuel as [|fuel IH]; intros t s I Qs H0 Hstep; simpl.
  - apply wp_ret. exists O. auto.
  - destruct (cond s) eqn:Hc.
    + apply wp_bind.
      specialize (Hstep O s [] ltac:(lia) H0 Hc) as Hx.
      rewrite app_nil_r in Hx.
      eapply wp_mono; [exact Hx| |by intros a tr Hs].
      intros s' tr1 Hs'. simpl in Hs'.
      eapply wp_mono.
      * apply (IH (t ++ tr1) s' (fun n a tr => I (Datatypes.S n) a (tr1 ++ tr))
                  (after tr1 Qs)).
        { by rewrite app_nil_r. }
        intros n a tr Hn HI Hca.
        specialize (Hstep (Datatypes.S n) a (tr1 ++ tr) ltac:(lia) HI Hca).
        rewrite app_assoc in Hstep.
        eapply wp_mono; [exact Hstep| |].
        -- intros a' tr'. by rewrite app_assoc.
        -- intros s0 tr'. unfold after. by rewrite app_assoc.
      * intros a tr (n & Hn & HI & Hfin). unfold after.
        exists (Datatypes.S n). repeat split; [lia|done|]. intros Hca. f_equal. auto.
      * done.
    + apply wp_ret. exists O. repeat split; [lia|done|congruence].
Qed.

End WpRules.

(** Reading a [wp] back as a statement about the run. *)
Lemma wp_elim {A} iam t (m : M A) Qr Qs :
  wp iam t m Qr Qs ->
  exists r tr, m iam t = (r, t ++ tr) /\
    match r with Ret a => Qr a tr | Abrupt s => Qs s tr end.
Proof.
  unfold wp. destruct (m iam t) as [[a|s] t']; intros (tr & -> & H); eauto.
Qed.

Lemma wp_intro {A} iam t (m : M A) r tr (Qr : A -> Trace -> Prop) (Qs : Abort -> Trace -> Prop) :
  m iam t = (r, t ++ tr) ->
  match r with Ret a => Qr a tr | Abrupt s => Qs s tr end ->
  wp iam t m Qr Qs.
Proof. unfold wp. intros -> H. destruct r; eauto. Qed.

(** ** Stepping through a computation *)

Ltac wp_step :=
  lazymatch goal with
  | |- wp _ _ (bind _ _) _ _ => apply wp_bind
  | |- wp _ _ (ret _) _ _ => apply wp_ret
  | |- wp ?iam ?t (read_local _ (Some ?a)) ?Qr ?Qs =>
      change (wp iam t (ret a) Qr Qs)
  | |- wp _ _ (fail_json _ _) _ _ => apply wp_fail_json
  | |- wp _ _ (exit_json _ _) _ _ => apply wp_exit_json
  | |- wp _ _ (raise _) _ _ => apply wp_raise
  | |- wp _ _ (try_boto _ _) _ _ => apply wp_try_boto
  | |- wp _ _ (try_boto_else _ _ _) _ _ => apply wp_try_boto_else
  | |- wp _ _ (try_exception _ _) _ _ => apply wp_try_exception
  | |- wp _ _ (try_exception_else _ _ _) _ _ => apply wp_try_exception_else
  | |- wp ?iam ?t (call ?c) _ _ => apply (wp_call iam t c); intros ? ?
  | |- wp _ _ (if ?b then _ else _) _ _ => destruct b eqn:?
  | |- wp _ _ (let (_, _) := ?x in _) _ _ => destruct x
  end; unfold after; cbv beta iota.

Ltac wp_steps := repeat wp_step.

(** ** Facts used throughout *)

Lemma not_fault_free (iam : Provider) t c err :
  iam t c = Fault err -> ~ fault_free iam.
Proof. intros H Hff. destruct (Hff t c) as [v Hv]. congruence. Qed.

Lemma name_in_app n l1 l2 : name_in n (l1 ++ l2) = name_in n l1 || name_in n l2.
Proof.
  destruct n as [n|]; [|done]. simpl.
  destruct (decide (n ∈ l1)), (decide (n ∈ l2));
    repeat first [rewrite bool_decide_eq_true_2 by set_solver
                 |rewrite bool_decide_eq_false_2 by set_solver]; done.
Qed.

Lemma count_calls_app f tr1 tr2 :
  count_calls f (tr1 ++ tr2) = (count_calls f tr1 + count_calls f tr2)%nat.
Proof.
  unfold count_calls. induction tr1 as [|c tr1 IH]; simpl; [done|].
  destruct (f c); simpl; lia.
Qed.

Lemma quiet_fault_free : fault_free quiet.
Proof. intros t c. by eexists. Qed.

Lemma bob_holding_fault_free ks : fault_free (bob_holding ks).
Proof. intros t c. destruct c; by eexists. Qed.



Ltac no_fault :=
  try (exfalso; eapply not_fault_free; [eassumption|eassumption]).

(** Once the checks pass and the inventory is read, [main] is its branch for
    the resource kind. *)
Lemma main_dispatch (p : Params) (iam : Provider) gl ul rl pl :
  names_activation p = false ->
  (iam_type p = user \/ (password p = None /\ access_key_state p = None)) ->
  (iam_type p = role -> state p <> update) ->
  inventory iam [] = (Ret (gl, ul, rl, pl), inventory_calls) ->
  run (main p) iam =
    match iam_type p with
    | user => main_user p (lowered_key_state p) (access_key_ids p) ul iam inventory_calls
    | group => main_group p gl iam inventory_calls
    | role => main_role p rl pl iam inventory_calls
    end.
Proof.
  destruct p as [ty gs st pw up ks ids kc n nn pa np].
  unfold names_activation, lowered_key_state, run, main; simpl.
  intros Hact Hval Hrole Hinv.
  destruct (truthy ks) eqn:Hks; simpl in Hact.
  - rewrite Hact.
    destruct Hval as [-> | [-> ->]]; [|discriminate Hks].
    unfold bind at 1. unfold bind at 2. unfold ret at 2. unfold bind at 1.
    unfold ret at 1. 
    destruct pw; simpl; unfold bind; simpl; rewrite Hinv; reflexivity.
  - destruct Hval as [-> | [-> ->]].
    + destruct pw; simpl; unfold bind; simpl; rewrite Hinv; reflexivity.
    + destruct ty, st; try (exfalso; by apply Hrole); simpl; unfold bind; simpl; rewrite Hinv; try reflexivity.
Qed.

Lemma user_exists_false (n nn : option string) (ul : list string) :
  (forall x, x ∈ ul -> Some x <> n /\ Some x <> nn) ->
  existsb (fun x => bool_decide (Some x ∈ [n; nn])) ul = false.
Proof.
  intros H. induction ul as [|x ul IH]; [done|]. simpl.
  rewrite IH by (intros y Hy; apply H; by right).
  destruct (H x ltac:(by left)) as [H1 H2].
  rewrite bool_decide_eq_false_2; [done|].
  intros Hin. apply elem_of_cons in Hin as [?|Hin]; [done|].
  apply elem_of_cons in Hin as [?|Hin]; [done|]. by apply elem_of_nil in Hin.
Qed.


Lemma user_listed (n nn : option string) (ul : list string) :
  (exists x, x ∈ ul /\ (Some x = n \/ Some x = nn)) ->
  existsb (fun x => bool_decide (Some x ∈ [n; nn])) ul = true.
Proof.
  intros (x & Hin & Hx). apply existsb_exists. exists x.
  split; [by apply list_elem_of_In|]. apply bool_decide_eq_true_2.
  destruct Hx as [<-| <-]; set_solver.
Qed.


(** ** Validation of the access-key directive *)

(** C5.  With [access_key_state] set to [active] or [inactive], whatever the
    other parameters (a key-id list supplied or not) and whatever the
    provider, [main] stops on the read of [key_ids], which is assigned only
    after the check: the invocation ends in an [UnboundLocalError] before
    any provider call, and the at-least-one-key message is never produced. *)
Theorem main_active_inactive_reads_unbound_key_ids :
  forall iam ty gs st pw up ids kc n nn pa np,
    run (main (mkParams ty gs st pw up (Some "active") ids kc n nn pa np)) iam
      = (Abrupt (Raise (UnboundLocalError "key_ids")), []) /\
    run (main (mkParams ty gs st pw up (Some "inactive") ids kc n nn pa np)) iam
      = (Abrupt (Raise (UnboundLocalError "key_ids")), []).
Proof. intros. split; reflexivity. Qed.

(** ** Deleting a user *)

(** The loop over the user's keys issues only [delete_access_key]. *)
Lemma wp_delete_keys (iam : Provider) (name : option string) keys
    (Qr : unit -> Trace -> Prop) (Qs : Abort -> Trace -> Prop) t :
  (forall tr, count_calls is_policy_call tr = O ->
              count_calls is_delete_user tr = O -> Qr tt tr) ->
  (forall ex tr, count_calls is_policy_call tr = O ->
                 count_calls is_delete_user tr = O -> Qs (Raise ex) tr) ->
  wp iam t (for_each keys (fun key => call (DeleteAccessKey key name))) Qr Qs.
Proof.
  intros HQr HQs.
  eapply wp_mono;
    [apply (wp_for_each iam _ keys t
              (fun _ tr => count_calls is_policy_call tr = O /\
                           count_calls is_delete_user tr = O) Qs)| |done].
  - done.
  - intros pre x post tr _ [Hp Hd]. wp_step.
    + rewrite !count_calls_app, Hp, Hd. done.
    + apply HQs; rewrite !count_calls_app; [by rewrite Hp|by rewrite Hd].
  - intros [] tr [Hp Hd]. by apply HQr.
Qed.

(** Against every provider, [delete_user] issues no policy call and at most
    one [delete_user] call, and whenever it does not return it has failed
    with [changed=False]. *)
Lemma delete_user_calls (iam : Provider) (name : option string) (t : Trace) :
  wp iam t (delete_user name)
    (fun _ tr => count_calls is_policy_call tr = O /\
                 (count_calls is_delete_user tr <= 1)%nat)
    (fun s tr => count_calls is_policy_call tr = O /\
                 (count_calls is_delete_user tr <= 1)%nat /\
                 exists msg, s = FailJson (Some false) msg).
Proof.
  unfold delete_user. wp_step. wp_step. wp_step.
  - wp_step. apply wp_delete_keys.
    + intros tr Hp Hd.
      wp_steps; rewrite ?app_nil_r, ?count_calls_app, ?Hp, ?Hd; simpl;
        repeat split; eauto with lia.
    + intros ex tr Hp Hd. cbv beta iota.
      wp_steps; rewrite ?app_nil_r, ?count_calls_app, ?Hp, ?Hd; simpl;
        repeat split; eauto with lia.
  - wp_steps. simpl. repeat split; eauto with lia.
Qed.

(** C1.  Whatever the provider, [delete_user] never lists or deletes an
    inline policy and never issues a second [delete_user] call.  On [bob],
    whose removal is refused while inline policies are attached, the absent
    branch ends in the generic "delete failed" failure after a single
    [delete_user] call.  On a user that has a login profile, neither the
    profile nor the user is deleted, and the invocation still reports a
    change. *)
Theorem absent_user_never_retries_delete :
  (forall iam name t,
      exists tr,
        (delete_user name iam t).2 = t ++ tr /\
        count_calls is_policy_call tr = O /\
        (count_calls is_delete_user tr <= 1)%nat) /\
  run (main absent_bob) bob_with_inline_policies
    = (Abrupt (FailJson (Some false)
         "delete failed Cannot delete entity, must detach all policies first."),
       inventory_calls ++
       [GetUser (Some "bob"); GetGroupsForUser (Some "bob");
        GetAllAccessKeys (Some "bob"); GetLoginProfiles (Some "bob");
        DeleteUser (Some "bob")]) /\
  run (main absent_bob) bob_with_login
    = (Abrupt (ExitJson (VBool true) [("deleted_user", VStr "bob")]),
       inventory_calls ++
       [GetUser (Some "bob"); GetGroupsForUser (Some "bob");
        GetAllAccessKeys (Some "bob"); GetLoginProfiles (Some "bob")]).
Proof.
  split; [|split; vm_compute; reflexivity].
  intros iam name t.
  destruct (wp_elim _ _ _ _ _ (delete_user_calls iam name t))
    as (r & tr & Hrun & Hpost).
  exists tr. rewrite Hrun. split; [done|].
  destruct r; simpl in Hpost; tauto.
Qed.

(** ** Explicit key ids *)

(** C6.  The status compared with the requested state is that of every key
    the user holds, not that of the listed key.  [K1] is already active and
    is activated once more because [K2] is inactive; [K1] is inactive and is
    activated twice because two keys are inactive; and a request to remove
    [K1] first issues [update_access_key] with the status [Remove], whose
    rejection ends the invocation before the key is deleted. *)
Theorem listed_key_compared_with_every_status :
  (run (update_user (Some "bob") None None (Some "active") 1 (Some ["K1"]) None false)
       (bob_keys [("K1", "Active"); ("K2", "Inactive")])).2
    = [GetAllAccessKeys (Some "bob"); GetAllAccessKeys (Some "bob");
       UpdateAccessKey "K1" "Active" (Some "bob");
       GetAllAccessKeys (Some "bob"); GetAllAccessKeys (Some "bob")] /\
  (run (update_user (Some "bob") None None (Some "active") 1 (Some ["K1"]) None false)
       (bob_keys [("K1", "Inactive"); ("K2", "Inactive")])).2
    = [GetAllAccessKeys (Some "bob"); GetAllAccessKeys (Some "bob");
       UpdateAccessKey "K1" "Active" (Some "bob");
       UpdateAccessKey "K1" "Active" (Some "bob");
       GetAllAccessKeys (Some "bob"); GetAllAccessKeys (Some "bob")] /\
  run (main remove_k1) (bob_keys [("K1", "Active")])
    = (Abrupt (FailJson (Some false) "Value at 'status' failed to satisfy constraint"),
       inventory_calls ++
       [GetUser (Some "bob");
        GetAllAccessKeys (Some "bob"); GetAllAccessKeys (Some "bob");
        UpdateAccessKey "K1" "Remove" (Some "bob")]).
Proof. repeat split; vm_compute; reflexivity. Qed.

(** ** Adding a user without groups to its groups *)

(** In the branch for a user without groups, a fault on an addition whose
    text is not the group-not-found one leaves the loop running. *)
Lemma for_each_add_absorbs (iam : Provider) (who : option string) groups :
  (forall t g err,
      iam t (AddUserToGroup g who) = Fault err ->
      contains ("The group with name " +:+ g +:+ " cannot be found.")
        (error_message err) = false) ->
  forall t,
    for_each groups (fun group =>
      try_boto (call (AddUserToGroup group who))
        (fun err =>
           let error_msg := boto_exception err in
           if contains ("The group with name " +:+ group +:+ " cannot be found.")
                error_msg
           then fail_json (Some false) ("Group " +:+ group +:+ " doesn't exist")
           else ret tt)) iam t
    = (Ret tt, t ++ map (fun g => AddUserToGroup g who) groups).
Proof.
  intros Hother. induction groups as [|g gs IH]; intros t; simpl.
  - unfold ret. by rewrite app_nil_r.
  - unfold bind, try_boto, try_boto_else, call at 1.
    destruct (iam t (AddUserToGroup g who)) as [[]|err] eqn:Hadd.
    + unfold ret at 1. rewrite IH. by rewrite <- app_assoc.
    + unfold boto_exception. rewrite (Hother _ _ _ Hadd).
      unfold ret at 1. rewrite IH. by rewrite <- app_assoc.
Qed.

(** Hence, when no fault carries the group-not-found text, the reconciler
    returns normally after attempting every addition, whatever faults the
    provider raised. *)
Lemma zero_groups_adds_absorb_faults (iam : Provider) (t : Trace)
    (name : option string) (groups : list string) (updated : bool)
    (new_name : option string) :
  let who := if updated then new_name else name in
  iam t (GetGroupsForUser who) = Ok [] ->
  (forall t' g err,
      iam t' (AddUserToGroup g who) = Fault err ->
      contains ("The group with name " +:+ g +:+ " cannot be found.")
        (error_message err) = false) ->
  exists changed,
    set_users_groups name groups updated new_name iam t
      = (Ret (groups, changed),
         t ++ GetGroupsForUser who :: map (fun g => AddUserToGroup g who) groups).
Proof.
  intros who Hget Hother. unfold set_users_groups. fold who.
  unfold try_boto_else. unfold bind at 1, call at 1. rewrite Hget.
  unfold ret at 1. change (0 <? length (@nil string))%nat with false. cbv iota.
  unfold bind. rewrite (for_each_add_absorbs iam who groups Hother).
  unfold ret. eexists. by rewrite <- app_assoc.
Qed.

(** C10.  [bob] is in no group and is to join [g1] and [g2]; the provider
    refuses the first addition with a fault other than "cannot be found".
    The fault is dropped: the second addition goes ahead and the invocation
    exits reporting a change and both groups. *)
Theorem add_fault_other_than_not_found_is_dropped :
  run (main bob_into_g1_g2) bob_denied_g1
    = (Abrupt (ExitJson (VBool true)
         [("groups", VList [VStr "g1"; VStr "g2"]); ("user_name", VStr "bob");
          ("keys", VDict [])]),
       inventory_calls ++
       [GetUser (Some "bob");
        GetAllAccessKeys (Some "bob"); GetAllAccessKeys (Some "bob");
        GetAllAccessKeys (Some "bob"); GetAllAccessKeys (Some "bob");
        GetGroupsForUser (Some "bob");
        AddUserToGroup "g1" (Some "bob"); AddUserToGroup "g2" (Some "bob")]).
Proof. vm_compute; reflexivity. Qed.

(** ** Running an update again after a rename *)

(** C4.  [old] has been renamed to [new] and the same update is run again.
    Whether the listing shows [new] or still shows [old], the first call on
    the user is [get_user] under the declared name, outside any handler: its
    fault ends the invocation with no result.  Where the provider still
    answers under the declared name, a listing of [old] alone leads to the
    rename call being issued again, and a listing of [new] alone leads to an
    [update_user] call on [new] and a reported change; with the current path
    given as [new_path] that call is not issued, and the invocation stops on
    the read of [orig_name], which is bound only when a rename took place. *)
Theorem rerun_after_rename_not_idempotent :
  run (main rename_old_new) (renamed ["new"])
    = (Abrupt (Raise (BotoErr (fault_of "The user with name old cannot be found."))),
       inventory_calls ++ [GetUser (Some "old")]) /\
  run (main rename_old_new) (renamed ["old"])
    = (Abrupt (Raise (BotoErr (fault_of "The user with name old cannot be found."))),
       inventory_calls ++ [GetUser (Some "old")]) /\
  run (main rename_old_new) (listing ["old"])
    = (Abrupt (ExitJson (VBool true)
         [("groups", VNone); ("old_user_name", VStr "old");
          ("new_user_name", VStr "new"); ("keys", VDict [])]),
       inventory_calls ++
       [GetUser (Some "old");
        GetAllAccessKeys (Some "old"); GetAllAccessKeys (Some "old");
        GetUser (Some "old"); UpdateUser (Some "old") (Some "new") None;
        GetAllAccessKeys (Some "old"); GetAllAccessKeys (Some "old")]) /\
  run (main rename_old_new) (listing ["new"])
    = (Abrupt (ExitJson (VBool true)
         [("groups", VNone); ("user_name", VStr "new"); ("keys", VDict []);
          ("key_state", VNone)]),
       inventory_calls ++
       [GetUser (Some "old");
        GetAllAccessKeys (Some "new"); GetAllAccessKeys (Some "new");
        GetUser (Some "new"); UpdateUser (Some "new") None None;
        GetAllAccessKeys (Some "new"); GetAllAccessKeys (Some "new")]) /\
  run (main rename_old_new_at_root) (listing ["new"])
    = (Abrupt (Raise (UnboundLocalError "orig_name")),
       inventory_calls ++
       [GetUser (Some "old");
        GetAllAccessKeys (Some "new"); GetAllAccessKeys (Some "new");
        GetUser (Some "new");
        GetAllAccessKeys (Some "new"); GetAllAccessKeys (Some "new")]).
Proof. repeat split; vm_compute; reflexivity. Qed.

(** ** Group membership *)

Section Membership.
Context (iam : Provider) (who : option string).
Hypothesis add_ok : forall t g, iam t (AddUserToGroup g who) = Ok tt.
Hypothesis remove_ok : forall t g, iam t (RemoveUserFromGroup g who) = Ok tt.

Lemma for_each_add l : forall t,
  for_each l (fun g => call (AddUserToGroup g who)) iam t
    = (Ret tt, t ++ map (fun g => AddUserToGroup g who) l).
Proof.
  induction l as [|g l IH]; intros t; simpl.
  - unfold ret. by rewrite app_nil_r.
  - unfold bind, call at 1. rewrite add_ok, IH. by rewrite <- app_assoc.
Qed.

Lemma for_each_remove l : forall t,
  for_each l (fun g => call (RemoveUserFromGroup g who)) iam t
    = (Ret tt, t ++ map (fun g => RemoveUserFromGroup g who) l).
Proof.
  induction l as [|g l IH]; intros t; simpl.
  - unfold ret. by rewrite app_nil_r.
  - unfold bind, call at 1. rewrite remove_ok, IH. by rewrite <- app_assoc.
Qed.

Lemma for_each_add_guarded l (h : string -> BotoServerError -> M unit) : forall t,
  for_each l (fun g => try_boto (call (AddUserToGroup g who)) (h g)) iam t
    = (Ret tt, t ++ map (fun g => AddUserToGroup g who) l).
Proof.
  induction l as [|g l IH]; intros t; simpl.
  - unfold ret. by rewrite app_nil_r.
  - unfold bind, try_boto, try_boto_else, call at 1.
    rewrite add_ok. unfold ret at 1. rewrite IH. by rewrite <- app_assoc.
Qed.
End Membership.

Lemma membership_after_app who tr1 tr2 C :
  membership_after who (tr1 ++ tr2) C
    = membership_after who tr2 (membership_after who tr1 C).
Proof. apply foldl_app. Qed.

Lemma membership_after_adds who l : forall C,
  membership_after who (map (fun g => AddUserToGroup g who) l) C = C ∪ list_to_set l.
Proof.
  induction l as [|g l IH]; intros C; simpl.
  - set_solver.
  - unfold membership_after in *. simpl. rewrite bool_decide_eq_true_2 by done.
    rewrite IH. set_solver.
Qed.

Lemma membership_after_removes who l : forall C,
  membership_after who (map (fun g => RemoveUserFromGroup g who) l) C = C ∖ list_to_set l.
Proof.
  induction l as [|g l IH]; intros C; simpl.
  - set_solver.
  - unfold membership_after in *. simpl. rewrite bool_decide_eq_true_2 by done.
    rewrite IH. set_solver.
Qed.

Lemma nonempty_elements (X : gset string) :
  (0 <? length (elements X))%nat = true <-> X <> ∅.
Proof.
  rewrite Nat.ltb_lt. split.
  - intros Hlen ->. rewrite elements_empty in Hlen. simpl in Hlen. lia.
  - intros Hne. destruct (elements X) eqn:E; simpl; [|lia].
    apply elements_empty_inv in E. by apply leibniz_equiv in E.
Qed.

Lemma add_then_remove (C D : gset string) : (C ∪ D ∖ C) ∖ (C ∖ D) = D.
Proof.
  apply set_eq. intros x. set_unfold.
  destruct (decide (x ∈ C)), (decide (x ∈ D)); tauto.
Qed.

Lemma changed_iff_difference (C D : gset string) :
  (if (0 <? length (elements (C ∖ D)))%nat || (0 <? length (elements (D ∖ C)))%nat
   then true else false) = true <-> D ∖ C ∪ C ∖ D <> ∅.
Proof.
  destruct ((0 <? length (elements (C ∖ D)))%nat
            || (0 <? length (elements (D ∖ C)))%nat) eqn:E.
  - split; [intros _|done]. apply orb_true_iff in E as [E|E];
      apply nonempty_elements in E; set_solver.
  - split; [done|]. intros Hne. apply orb_false_iff in E as [E1 E2].
    assert (C ∖ D = ∅).
    { destruct (decide (C ∖ D = ∅)) as [|n]; [done|].
      apply nonempty_elements in n. congruence. }
    assert (D ∖ C = ∅).
    { destruct (decide (D ∖ C = ∅)) as [|n]; [done|].
      apply nonempty_elements in n. congruence. }
    set_solver.
Qed.

Lemma difference_empty_l (D : gset string) : D ∖ ∅ = D.
Proof. set_solver. Qed.

Lemma empty_difference (D : gset string) : (∅ : gset string) ∖ D = ∅.
Proof. set_solver. Qed.

(** C2.  With [C] the groups the provider reports for the user and [D] the
    groups asked for, and the membership calls accepted, the reconciler
    issues after the listing the additions [toAdd] and then the removals
    [toRemove], where [toAdd] is [D \ C] and [toRemove] is [C \ D] as sets;
    the membership after these calls is [D]; and the flag returned is true
    exactly when one of the two differences is non-empty. *)
Theorem set_users_groups_diff (iam : Provider) (t : Trace) (name : option string)
    (groups : list string) (updated : bool) (new_name : option string)
    (orig : list string) :
  let who := if updated then new_name else name in
  let C : gset string := list_to_set orig in
  let D : gset string := list_to_set groups in
  iam t (GetGroupsForUser who) = Ok orig ->
  (forall t' g, iam t' (AddUserToGroup g who) = Ok tt) ->
  (forall t' g, iam t' (RemoveUserFromGroup g who) = Ok tt) ->
  exists toAdd toRemove changed,
    set_users_groups name groups updated new_name iam t
      = (Ret (groups, changed),
         t ++ [GetGroupsForUser who]
           ++ map (fun g => AddUserToGroup g who) toAdd
           ++ map (fun g => RemoveUserFromGroup g who) toRemove) /\
    list_to_set toAdd = D ∖ C /\
    list_to_set toRemove = C ∖ D /\
    membership_after who
      (map (fun g => AddUserToGroup g who) toAdd
         ++ map (fun g => RemoveUserFromGroup g who) toRemove) C = D /\
    (changed = true <-> D ∖ C ∪ C ∖ D <> ∅).
Proof.
  intros who C D Hget Hadd Hrm.
  pose proof (changed_iff_difference C D) as Hchanged.
  pose proof (add_then_remove C D) as Hfinal.
  unfold set_users_groups. fold who. unfold try_boto_else.
  unfold bind at 1, call at 1. rewrite Hget. unfold ret at 1.
  fold C D.
  destruct orig as [|o orig'] eqn:Horig.
  - (* no group yet: every desired group is added *)
    exists groups, [], (if ((0 <? length (elements (C ∖ D)))%nat
                            || (0 <? length (elements (D ∖ C)))%nat)
                        then true else false).
    change (0 <? length (@nil string))%nat with false. cbv iota.
    unfold bind. rewrite for_each_add_guarded by done.
    unfold ret. simpl map. rewrite app_nil_r.
    assert (HC : C = ∅) by done.
    split; [by rewrite <- app_assoc|].
    split; [by rewrite HC, difference_empty_l|].
    split; [by rewrite HC, empty_difference|].
    split.
    + rewrite membership_after_adds, HC. clear. set_solver.
    + exact Hchanged.
  - exists (elements (D ∖ C)), (elements (C ∖ D)),
           (if ((0 <? length (elements (C ∖ D)))%nat
                || (0 <? length (elements (D ∖ C)))%nat)
            then true else false).
    change (0 <? length (o :: orig'))%nat with true. cbv iota.
    unfold bind. rewrite for_each_add by done.
    rewrite for_each_remove by done. unfold ret.
    split; [by rewrite <- !app_assoc|].
    split; [apply list_to_set_elements_L|].
    split; [apply list_to_set_elements_L|].
    split.
    + rewrite membership_after_app, membership_after_adds, membership_after_removes.
      rewrite !list_to_set_elements_L. exact Hfinal.
    + exact Hchanged.
Qed.

Lemma set_users_groups_diff_witness :
  exists toAdd toRemove changed,
    set_users_groups (Some "bob") ["b"; "c"] false None bob_in_a_b []
      = (Ret (["b"; "c"], changed),
         [] ++ [GetGroupsForUser (Some "bob")]
            ++ map (fun g => AddUserToGroup g (Some "bob")) toAdd
            ++ map (fun g => RemoveUserFromGroup g (Some "bob")) toRemove) /\
    list_to_set toAdd = (list_to_set ["b"; "c"] : gset string) ∖ list_to_set ["a"; "b"] /\
    list_to_set toRemove = (list_to_set ["a"; "b"] : gset string) ∖ list_to_set ["b"; "c"] /\
    membership_after (Some "bob")
      (map (fun g => AddUserToGroup g (Some "bob")) toAdd
         ++ map (fun g => RemoveUserFromGroup g (Some "bob")) toRemove)
      (list_to_set ["a"; "b"]) = list_to_set ["b"; "c"] /\
    (changed = true <->
       (list_to_set ["b"; "c"] : gset string) ∖ list_to_set ["a"; "b"]
         ∪ list_to_set ["a"; "b"] ∖ list_to_set ["b"; "c"] <> ∅).
Proof.
  apply (set_users_groups_diff bob_in_a_b [] (Some "bob") ["b"; "c"] false None ["a"; "b"]);
    [reflexivity | intros; reflexivity | intros; reflexivity].
Defined.

(** ** Absent on a missing resource *)

(** C7, as stated: the role [r1] is not in the role inventory, and the
    absent branch still deletes the instance profile of that name and lists
    the roles again. *)
Lemma absent_on_missing_role_deletes_profile :
  ~ absent_on_missing_spec orphan_profile_r1 (absent_of role "r1").
Proof.
  intros H.
  destruct (H [] [] [] ["r1"] eq_refl eq_refl) as (fields & tr & Hrun & Hro).
  vm_compute in Hrun. injection Hrun as _ <-.
  apply Forall_cons in Hro as [Hm _]. discriminate Hm.
Qed.

(** The profile loop of [delete_role]: [k] deletions are accepted, one for
    each of the first [k] entries equal to [n]; either these are all the
    entries equal to [n] and the loop returns, or the deletion for the next
    one faults and ends the loop. *)
Lemma profile_loop (iam : Provider) (n : option string) pl : forall t,
  exists k,
    (k <= same_name_profiles n pl)%nat /\
    (forall j, (j < k)%nat ->
       iam (t ++ repeat (DeleteInstanceProfile n) j) (DeleteInstanceProfile n) = Ok tt) /\
    if (k <? same_name_profiles n pl)%nat then
      exists err,
        iam (t ++ repeat (DeleteInstanceProfile n) k) (DeleteInstanceProfile n)
          = Fault err /\
        for_each pl (fun prof =>
          when (bool_decide (n = Some prof)) (call (DeleteInstanceProfile n))) iam t
          = (Abrupt (Raise (BotoErr err)),
             t ++ repeat (DeleteInstanceProfile n) k ++ [DeleteInstanceProfile n])
    else
      for_each pl (fun prof =>
        when (bool_decide (n = Some prof)) (call (DeleteInstanceProfile n))) iam t
        = (Ret tt, t ++ repeat (DeleteInstanceProfile n) k).
Proof.
  set (purge := DeleteInstanceProfile n). unfold same_name_profiles.
  induction pl as [|x pl IH]; intros t; simpl.
  - exists O. split; [lia|]. split; [lia|]. unfold ret. simpl. by rewrite app_nil_r.
  - destruct (bool_decide (n = Some x)) eqn:Hx; simpl.
    + destruct (iam t purge) as [[]|err] eqn:Hc.
      * assert (Hhead : forall m : M unit,
                   bind (call purge) (fun _ => m) iam t = m iam (t ++ [purge]))
          by (intros m; unfold bind, call; by rewrite Hc).
        rewrite Hhead.
        destruct (IH (t ++ [purge])) as (k & Hk & Hok & Hrun).
        exists (S k). split; [lia|]. split.
        -- intros [|j] Hj; simpl; [by rewrite app_nil_r|].
           replace (t ++ purge :: repeat purge j) with ((t ++ [purge]) ++ repeat purge j)
             by (by rewrite <- app_assoc).
           apply Hok. lia.
        -- change (S k <? S ?m)%nat with (k <? m)%nat. simpl repeat.
           destruct (k <? _)%nat.
           ++ destruct Hrun as (err & Hf & Hrun). exists err.
              rewrite <- app_assoc in Hf. rewrite <- app_assoc in Hrun.
              split; [exact Hf | exact Hrun].
           ++ rewrite <- app_assoc in Hrun. exact Hrun.
      * exists O. split; [lia|]. split; [lia|]. exists err.
        simpl. rewrite app_nil_r. split; [done|].
        unfold bind, call. by rewrite Hc.
    + unfold bind at 1, ret at 1. apply IH.
Qed.

(** [delete_role] for a role that is not in the role list is the profile
    loop, reported with [changed=False], and the final listing. *)
Lemma delete_role_missing (iam : Provider) (t : Trace) (n : option string) rl pl :
  name_in n rl = false ->
  delete_role n rl pl iam t
    = match for_each pl (fun prof =>
              when (bool_decide (n = Some prof)) (call (DeleteInstanceProfile n))) iam t
      with
      | (Ret _, t') => bind (call ListRoles) (fun roles => ret (false, roles)) iam t'
      | (Abrupt (Raise (BotoErr err)), t') =>
          (Abrupt (FailJson (Some false) (to_str err)), t')
      | (Abrupt s, t') => (Abrupt s, t')
      end.
Proof.
  intros Hmiss. unfold delete_role. rewrite Hmiss.
  unfold bind at 1. unfold try_boto at 1, try_boto_else. unfold ret at 1 2.
  unfold bind at 1. unfold try_boto at 1, try_boto_else.
  destruct (for_each _ _ iam t) as [[[]|[[err|v|msg]|c f|c msg]] t']; reflexivity.
Qed.

(** C7, amended.  For an invocation with [state=absent] that passes the
    parameter checks, on a resource that the inventory does not list (for a
    user: neither [name] nor [new_name] is listed): a user or a group
    invocation exits with [changed=False] and its already-absent message,
    and issues no call after the inventory snapshot.  A role invocation
    issues no role-removal call; it issues one [delete_instance_profile]
    for every entry of the profile list equal to the role name, until one
    is refused.  If one is refused the invocation fails there with
    [changed=False] and the fault's text; otherwise it issues [list_roles]
    and exits with [changed=False] and the provider's answer as the role
    list (a fault of that listing is raised as it is). *)
Theorem absent_on_missing (p : Params) (iam : Provider) gl ul rl pl :
  state p = absent ->
  names_activation p = false ->
  (iam_type p = user \/ (password p = None /\ access_key_state p = None)) ->
  inventory iam [] = (Ret (gl, ul, rl, pl), inventory_calls) ->
  not_in_inventory p gl ul rl ->
  match iam_type p with
  | user =>
      run (main p) iam
        = (Abrupt (ExitJson (VBool false)
             [("msg", VStr ("User " +:+ fmt (name p) +:+
                            " is already absent from your AWS IAM users"))]),
           inventory_calls)
  | group =>
      run (main p) iam
        = (Abrupt (ExitJson (VBool false) [("msg", VStr "Group already absent")]),
           inventory_calls)
  | role =>
      let purge := DeleteInstanceProfile (name p) in
      exists k,
        (k <= same_name_profiles (name p) pl)%nat /\
        (forall j, (j < k)%nat ->
                   iam (inventory_calls ++ repeat purge j) purge = Ok tt) /\
        if (k <? same_name_profiles (name p) pl)%nat then
          exists err,
            iam (inventory_calls ++ repeat purge k) purge = Fault err /\
            run (main p) iam
              = (Abrupt (FailJson (Some false) (to_str err)),
                 inventory_calls ++ repeat purge k ++ [purge])
        else
          run (main p) iam
            = (Abrupt
                 (match iam (inventory_calls ++ repeat purge k) ListRoles with
                  | Ok roles => ExitJson (VBool false) [("roles", vstrs roles)]
                  | Fault err => Raise (BotoErr err)
                  end),
               inventory_calls ++ repeat purge k ++ [ListRoles])
  end.
Proof.
  intros Hst Hact Hchecks Hinv Hmiss.
  rewrite (main_dispatch p iam gl ul rl pl); try done.
  - unfold not_in_inventory in Hmiss. destruct (iam_type p) eqn:Hty.
    + unfold main_user. rewrite Hst.
      by rewrite (user_exists_false _ _ _ Hmiss).
    + unfold main_group. by rewrite Hst, Hmiss.
    + intros purge. unfold main_role. rewrite Hst.
      subst purge.
      destruct (profile_loop iam (name p) pl inventory_calls) as (k & Hk & Hok & Hrun).
      exists k. split; [done|]. split; [done|].
      destruct (k <? same_name_profiles (name p) pl)%nat.
      * destruct Hrun as (err & Hf & Hrun). exists err. split; [done|].
        unfold bind at 1. rewrite (delete_role_missing iam _ _ _ _ Hmiss).
        by rewrite Hrun.
      * unfold bind at 1. rewrite (delete_role_missing iam _ _ _ _ Hmiss).
        rewrite Hrun. unfold bind, call.
        destruct (iam (inventory_calls ++ repeat _ k) ListRoles);
          by rewrite <- app_assoc.
  - intros _. by rewrite Hst.
Qed.

Lemma absent_on_missing_witness :
  run (main absent_ghost_keys) quiet
    = (Abrupt (ExitJson (VBool false)
         [("msg", VStr ("User " +:+ fmt (Some "ghost") +:+
                        " is already absent from your AWS IAM users"))]),
       inventory_calls) /\
  run (main (absent_of group "ops")) quiet
    = (Abrupt (ExitJson (VBool false) [("msg", VStr "Group already absent")]),
       inventory_calls) /\
  run (main (absent_of role "r1")) orphan_profile_r1
    = (Abrupt (ExitJson (VBool false) [("roles", vstrs [])]),
       inventory_calls ++ [DeleteInstanceProfile (Some "r1"); ListRoles]).
Proof.
  split; [|split].
  - apply (absent_on_missing absent_ghost_keys quiet [] [] [] []);
      [reflexivity | reflexivity | by left | reflexivity |].
    intros n Hn. by apply elem_of_nil in Hn.
  - apply (absent_on_missing (absent_of group "ops") quiet [] [] [] []);
      [reflexivity | reflexivity | by right | reflexivity | reflexivity].
  - pose proof (absent_on_missing (absent_of role "r1") orphan_profile_r1
                  [] [] [] ["r1"] eq_refl eq_refl
                  (or_intror (conj eq_refl eq_refl)) eq_refl eq_refl) as Hrole.
    simpl in Hrole. destruct Hrole as (k & Hk & _ & Hrun).
    destruct k as [|[|k]].
    + destruct Hrun as (err & Hf & _). discriminate Hf.
    + exact Hrun.
    + exfalso. clear -Hk. vm_compute in Hk. lia.
Defined.

(** ** Failures and the changed flag *)

Section Tracks.
Context (iam : Provider).

Lemma mid_fail_frame t tr1 s tr2 :
  mid_fail iam (t ++ tr1) s tr2 -> mid_fail iam t s (tr1 ++ tr2).
Proof.
  destruct s as [[err| |]| |]; simpl; try done.
  - intros (pre & c & e & -> & Hf & HP). exists (tr1 ++ pre), c, e.
    by rewrite !app_assoc.
  - intros (pre & c' & e & -> & Hf & HP). exists (tr1 ++ pre), c', e.
    by rewrite !app_assoc.
Qed.

Lemma mid_fail_final t tr1 s tr2 :
  mid_fail iam (t ++ tr1) s tr2 -> final_fail iam t s (tr1 ++ tr2).
Proof.
  destruct s as [[err| |]| |]; simpl; try done.
  intros (pre & c' & e & -> & Hf & Hkl & Hc). exists (tr1 ++ pre), c', e.
  rewrite !app_assoc. repeat split; [done| |done]. intros Hk. by destruct Hkl.
Qed.

Lemma tracks_ret {A} (a : A) flag ch : flag a = ch -> tracks iam (ret a) flag ch.
Proof. intros H t. apply wp_ret. simpl. by rewrite orb_false_r. Qed.

Lemma tracks_call c ch :
  ~ is_key_listing c ->
  tracks iam (call c) (fun _ => ch || mutating c) ch.
Proof.
  intros Hkl t. apply (wp_call iam t c).
  - intros v _. simpl. by rewrite orb_false_r.
  - intros err Hf. exists [], c, err. by rewrite app_nil_r.
Qed.

Lemma tracks_read_local {A} var (v : option A) ch :
  tracks iam (read_local var v) (fun _ => ch) ch.
Proof.
  intros t. apply wp_read_local; [|done]. intros a _. simpl. by rewrite orb_false_r.
Qed.

Lemma tracks_bind {A B} (m : M A) (k : A -> M B) flagm flag ch :
  tracks iam m flagm ch -> (forall a, tracks iam (k a) flag (flagm a)) ->
  tracks iam (bind m k) flag ch.
Proof.
  intros Hm Hk t. apply wp_bind. eapply wp_mono; [apply Hm| |done].
  intros a tr1 Ha. eapply wp_mono; [apply Hk| |].
  - intros b tr2 Hb. unfold after. by rewrite Hb, Ha, existsb_app, orb_assoc.
  - intros s tr2. unfold after. apply mid_fail_frame.
Qed.

Lemma tracks_try_boto_else {A B} (body : M A) handler (orelse : A -> M B)
    flagb flag ch :
  tracks iam body flagb ch ->
  (forall err, exists c msg, handler err = fail_json c msg /\ c <> Some true) ->
  (forall a, tracks iam (orelse a) flag (flagb a)) ->
  tracks iam (try_boto_else body handler orelse) flag ch.
Proof.
  intros Hb Hh Ho t. apply wp_try_boto_else. eapply wp_mono; [apply Hb| |].
  - intros a tr1 Ha. eapply wp_mono; [apply Ho| |].
    + intros b tr2 Hb'. unfold after. by rewrite Hb', Ha, existsb_app, orb_assoc.
    + intros s tr2. unfold after. apply mid_fail_frame.
  - intros [[err|v|msg]| |] tr1 Hs; try exact Hs.
    destruct (Hh err) as (c & msg & -> & Hc). apply wp_fail_json.
    unfold after. rewrite app_nil_r. simpl in Hs |- *.
    destruct Hs as (pre & c' & e & -> & Hf & Hkl). by exists pre, c', e.
Qed.

Lemma tracks_try_boto {A} (body : M A) handler (flag : A -> bool) ch :
  tracks iam body flag ch ->
  (forall err, exists c msg, handler err = fail_json c msg /\ c <> Some true) ->
  tracks iam (try_boto body handler) flag ch.
Proof.
  intros Hb Hh. apply tracks_try_boto_else with (flagb := flag); [done|done|].
  intros a. by apply tracks_ret.
Qed.

Lemma tracks_for_fold {A St} (body : St -> A -> M St) l (flag : St -> bool) :
  (forall acc x, tracks iam (body acc x) flag (flag acc)) ->
  forall acc, tracks iam (for_fold l acc body) flag (flag acc).
Proof.
  intros Hb. induction l as [|x l IH]; intros acc; simpl.
  - by apply tracks_ret.
  - apply tracks_bind with (flagm := flag); auto.
Qed.

Lemma tracks_while_loop {St} cond (body : St -> M St) fuel (flag : St -> bool) :
  (forall s, tracks iam (body s) flag (flag s)) ->
  forall s, tracks iam (while_loop fuel cond body s) flag (flag s).
Proof.
  intros Hb. induction fuel as [|fuel IH]; intros s; simpl.
  - by apply tracks_ret.
  - destruct (cond s); [|by apply tracks_ret].
    apply tracks_bind with (flagm := flag); auto.
Qed.

(** One accepted mutating call sets the flag. *)
Lemma tracks_commit {B} c (b : B) handler (flag : B -> bool) ch :
  ~ is_key_listing c -> mutating c = true -> flag b = true ->
  (forall err, exists c' msg, handler err = fail_json c' msg /\ c' <> Some true) ->
  tracks iam (try_boto_else (call c) handler (fun _ => ret b)) flag ch.
Proof.
  intros Hkl Hmut Hb Hh.
  apply tracks_try_boto_else with (flagb := fun _ => ch || mutating c);
    [by apply tracks_call|done|].
  intros _. apply tracks_ret. by rewrite Hb, Hmut, orb_true_r.
Qed.

(** A stage that tracks the flag, followed by the rest of [update_user]. *)
Lemma tracks_step {A B} t done_ (m : M A) (k : A -> M B) flag ch :
  ch = existsb mutating done_ ->
  tracks iam m flag ch ->
  (forall a tr1,
      flag a = existsb mutating (done_ ++ tr1) ->
      wp iam (t ++ done_ ++ tr1) (k a) (fun _ _ => True)
        (after (done_ ++ tr1) (final_fail iam t))) ->
  wp iam (t ++ done_) (bind m k) (fun _ _ => True) (after done_ (final_fail iam t)).
Proof.
  intros -> Hm Hk. apply wp_bind. eapply wp_mono; [apply Hm| |].
  - intros a tr1 Ha. cbv beta in Ha. rewrite <- existsb_app in Ha.
    specialize (Hk a tr1 Ha).
    rewrite app_assoc in Hk. eapply wp_mono; [exact Hk|done|].
    intros s tr2. unfold after. by rewrite app_assoc.
  - intros s tr. unfold after. apply mid_fail_final.
Qed.

End Tracks.

Ltac tracks_call :=
  lazymatch goal with
  | |- tracks ?iam (call ?c) _ ?ch =>
      refine (tracks_call iam c ch _); intros [? [=]]
  end.

Ltac unchanged_failure :=
  intros ?;
  first [ by (eexists (Some false), _; split; [reflexivity|])
        | by (eexists None, _; split; [reflexivity|]) ].

Section UpdateUserFlag.
Context (iam : Provider).

Lemma first_listing_fail t (name new_name : option string) (updated : bool) :
  wp iam t
    (try_boto
       (do ks <- fetch_keys name;
        ret (name, ks.1, ks.2, Some (Z.of_nat (length ks.1))))
       (fun err =>
          let error_msg := boto_exception err in
          if contains "cannot be found" error_msg && updated then
            do ks <- fetch_keys new_name;
            ret (new_name, ks.1, ks.2, None)
          else fail_json (Some false) (to_str err)))
    (fun _ tr => existsb mutating tr = false) (final_fail iam t).
Proof.
  unfold fetch_keys. wp_steps; try done; simpl.
  - by exists [GetAllAccessKeys name], (GetAllAccessKeys name), err.
  - exists [], (GetAllAccessKeys name), err. by rewrite app_nil_r.
Qed.

Lemma tracks_rename (name new_name new_path : option string) (updated : bool) :
  tracks iam
    (if truthy new_name || truthy new_path then
       do c_path <- call (GetUser name);
       if py_ne name new_name || py_ne (Some c_path) new_path then
         try_boto_else
           (if negb updated then call (UpdateUser name new_name new_path)
            else call (UpdateUser name None new_path))
           (fun err => fail_json (Some false) (to_str err))
           (fun _ => ret (true, if negb updated then true else false))
       else ret (false, false)
     else ret (false, false))
    (fun r => r.1) false.
Proof.
  destruct (_ || _); [|by apply tracks_ret].
  apply tracks_bind with (flagm := fun _ => false || mutating (GetUser name));
    [tracks_call|intros c_path].
  destruct (_ || _); [|by apply tracks_ret].
  destruct (negb updated).
  - apply (tracks_commit iam (UpdateUser name new_name new_path));
      [by intros [? [=]]|done|done|unchanged_failure].
  - apply (tracks_commit iam (UpdateUser name None new_path));
      [by intros [? [=]]|done|done|unchanged_failure].
Qed.

Lemma tracks_password (name pwd : option string) ch :
  tracks iam
    (if truthy pwd then
       try_boto
         (do _ <- call (UpdateLoginProfile name pwd);
          ret true)
         (fun _ =>
            try_boto
              (do _ <- call (CreateLoginProfile name pwd);
               ret true)
              (fun err =>
                 let error_msg := boto_exception_str (to_str err) in
                 if contains "Password does not conform to the account password policy"
                      error_msg
                 then fail_json (Some false) "Passsword doesn't conform to policy"
                 else fail_json None error_msg))
     else ret ch)
    (fun c => c) ch.
Proof.
  destruct (truthy pwd); [|by apply tracks_ret].
  intros t. wp_steps; simpl; rewrite ?orb_true_r; try done.
  - exists [UpdateLoginProfile name pwd], (CreateLoginProfile name pwd), err0.
    repeat split; [done| |done]. by intros [? [=]].
  - exists [UpdateLoginProfile name pwd], (CreateLoginProfile name pwd), err0.
    repeat split; [done| |done]. by intros [? [=]].
Qed.

Lemma tracks_key_creation (name key_state : option string) (key_count : Z)
    (key_qty : option Z) ch :
  tracks iam
    (if bool_decide (key_state = Some "create") then
       try_boto
         (do key_qty <- read_local "key_qty" key_qty;
          do st <- while_loop (Z.to_nat (key_count - key_qty))
                     (fun st : Z * bool => key_count >? st.1)
                     (fun st =>
                        do _ <- call (CreateAccessKey name);
                        ret (st.1 + 1, true))
                     (key_qty, ch);
          ret st.2)
         (fun err => fail_json (Some false) (to_str err))
     else ret ch)
    (fun c => c) ch.
Proof.
  destruct (bool_decide _); [|by apply tracks_ret].
  apply tracks_try_boto; [|unchanged_failure].
  apply tracks_bind with (flagm := fun _ => ch); [apply tracks_read_local|intros kq].
  apply tracks_bind with (flagm := fun st : Z * bool => st.2).
  - refine (tracks_while_loop iam _ _ _ (fun st : Z * bool => st.2) _ (kq, ch)).
    intros st. simpl.
    apply tracks_bind with (flagm := fun _ => st.2 || mutating (CreateAccessKey name));
      [tracks_call|intros _]. apply tracks_ret. simpl. by rewrite orb_true_r.
  - intros st. by apply tracks_ret.
Qed.

Lemma tracks_key_ids (name : option string) (keys : option (list string))
    (key_state : option string) (current_keys status : list string) ch :
  tracks iam
    (if truthy_list keys && truthy key_state then
       let key_state := default "" key_state in
       for_fold (default [] keys) ch (fun changed access_key =>
         if bool_decide (access_key ∈ current_keys) then
           do changed <-
             for_fold (zip current_keys status) changed
               (fun changed '(current_key, current_key_state) =>
                  if negb (String.eqb key_state (lower current_key_state)) then
                    try_boto_else
                      (call (UpdateAccessKey access_key (capitalize key_state) name))
                      (fun err => fail_json (Some false) (to_str err))
                      (fun _ => ret true)
                  else ret changed);
           if String.eqb key_state "remove" then
             try_boto_else
               (call (DeleteAccessKey access_key name))
               (fun err => fail_json (Some false) (to_str err))
               (fun _ => ret true)
           else ret changed
         else ret changed)
     else ret ch)
    (fun c => c) ch.
Proof.
  destruct (_ && _); [|by apply tracks_ret]. cbv zeta.
  refine (tracks_for_fold iam _ _ (fun c : bool => c) _ ch).
  intros acc access_key. destruct (bool_decide _); [|by apply tracks_ret].
  apply tracks_bind with (flagm := fun c : bool => c).
  - refine (tracks_for_fold iam _ _ (fun c : bool => c) _ acc).
    intros acc' [ck cks]. destruct (negb _); [|by apply tracks_ret].
    apply tracks_commit; [by intros [? [=]]|done|done|unchanged_failure].
  - intros acc'. destruct (String.eqb _ _); [|by apply tracks_ret].
    apply tracks_commit; [by intros [? [=]]|done|done|unchanged_failure].
Qed.

Lemma final_listing_reports_flag t done_ (name : option string) {B} (k : _ -> M B) :
  (forall a t', exists b, k a iam t' = (Ret b, t')) ->
  wp iam (t ++ done_)
    (do final <- try_boto (fetch_keys name)
                   (fun err => fail_json (Some (existsb mutating done_)) (to_str err));
     k final)
    (fun _ _ => True) (after done_ (final_fail iam t)).
Proof.
  intros Hk. unfold fetch_keys, after. wp_steps; simpl.
  - destruct (Hk (map fst v, map snd v0)
                ((t ++ done_) ++ [GetAllAccessKeys name; GetAllAccessKeys name]))
      as (b & Hb).
    apply (wp_intro _ _ _ (Ret b) []); [by rewrite app_nil_r|done].
  - exists (done_ ++ [GetAllAccessKeys name]), (GetAllAccessKeys name), err.
    rewrite <- app_assoc in H0. split; [by rewrite <- app_assoc|].
    split; [done|]. split.
    + intros _. by rewrite existsb_app, orb_false_r.
    + intros Hkl. destruct Hkl. by eexists.
  - exists done_, (GetAllAccessKeys name), err.
    repeat split; [done|]. intros Hkl. destruct Hkl. by eexists.
Qed.

End UpdateUserFlag.

(** [update_user], stage by stage: the first listing, the stages that track
    the flag, the final listing. *)
Lemma update_user_final_fail (iam : Provider) (t : Trace) name new_name new_path
    key_state key_count keys pwd updated :
  wp iam t (update_user name new_name new_path key_state key_count keys pwd updated)
    (fun _ _ => True) (final_fail iam t).
Proof.
  unfold update_user. cbv zeta.
  apply wp_bind. eapply wp_mono; [apply first_listing_fail| |done].
  intros [[[nm ck] st] q] tr1 H1. cbv beta iota.
  refine (tracks_step iam t tr1 _ _ (fun r : bool * bool => r.1) false
            (eq_sym H1) (tracks_rename iam nm new_name new_path updated) _).
  intros [ch nc] tr2 H2. simpl in H2.
  refine (tracks_step iam t (tr1 ++ tr2) _ _ (fun c : bool => c) ch
            H2 (tracks_password iam nm pwd ch) _).
  intros ch1 tr3 H3.
  refine (tracks_step iam t ((tr1 ++ tr2) ++ tr3) _ _ (fun c : bool => c) ch1
            H3 (tracks_key_creation iam nm key_state key_count q ch1) _).
  intros ch2 tr4 H4.
  refine (tracks_step iam t (((tr1 ++ tr2) ++ tr3) ++ tr4) _ _ (fun c : bool => c) ch2
            H4 (tracks_key_ids iam nm keys key_state ck st ch2) _).
  intros ch3 tr5 H5. rewrite H5.
  apply final_listing_reports_flag. intros a t'. by eexists.
Qed.

(** C8.  How [update_user] fails, for every provider and input: the call
    that faulted is the last call issued, so nothing is undone and nothing
    is issued after it; after the fault of a key listing the failure reports
    whether a mutating call was issued before it; after the fault of any
    other call it never reports [changed=True].  On [bob], the rename to
    [robert] is accepted and the key creation that follows it faults: the
    invocation fails with [changed=False].  The handler of the final key
    listing of the same function, and the handler of [update_group], do
    report the change made before the fault. *)
Theorem update_user_failure_flag :
  (forall iam t t' name new_name new_path key_state key_count keys pwd updated c msg,
      update_user name new_name new_path key_state key_count keys pwd updated iam t
        = (Abrupt (FailJson c msg), t') ->
      exists pre call err,
        t' = t ++ pre ++ [call] /\
        iam (t ++ pre) call = Fault err /\
        (is_key_listing call -> c = Some (existsb mutating pre)) /\
        (~ is_key_listing call -> c <> Some true)) /\
  bob_renamed_midway
    (inventory_calls ++
     [GetUser (Some "bob");
      GetAllAccessKeys (Some "bob"); GetAllAccessKeys (Some "bob");
      GetUser (Some "bob")])
    (UpdateUser (Some "bob") (Some "robert") None) = Ok tt /\
  run (main rename_and_key) bob_renamed_midway
    = (Abrupt (FailJson (Some false) "The user with name bob cannot be found."),
       inventory_calls ++
       [GetUser (Some "bob");
        GetAllAccessKeys (Some "bob"); GetAllAccessKeys (Some "bob");
        GetUser (Some "bob");
        UpdateUser (Some "bob") (Some "robert") None;
        CreateAccessKey (Some "bob")]) /\
  run (main present_bob_one_key) bob_throttled_after_key
    = (Abrupt (FailJson (Some true) "Rate exceeded"),
       inventory_calls ++
       [GetUser (Some "bob");
        GetAllAccessKeys (Some "bob"); GetAllAccessKeys (Some "bob");
        CreateAccessKey (Some "bob");
        GetAllAccessKeys (Some "bob")]) /\
  update_group (Some tt) (Some "ops") (Some "sre") (Some "/teams/") ops_rename_refused []
    = (Abrupt (FailJson (Some true) "Group with name sre already exists."),
       [GetGroup (Some "ops");
        UpdateGroup (Some "ops") None (Some "/teams/");
        UpdateGroup (Some "ops") (Some "sre") (Some "/teams/")]).
Proof.
  split; [|repeat split; vm_compute; reflexivity].
  intros iam t t' name new_name new_path key_state key_count keys pwd updated c msg Hrun.
  pose proof (update_user_final_fail iam t name new_name new_path key_state key_count
                keys pwd updated) as Hwp.
  apply wp_elim in Hwp as (r & tr & Hrun' & Hpost).
  rewrite Hrun in Hrun'. injection Hrun' as <- ->.
  destruct Hpost as (pre & call & err & -> & Hf & Hkl & Hother).
  by exists pre, call, err.
Qed.

(** C8, as stated: the rename of [bob] is committed, the key creation that
    follows faults, and the failure reports [changed=False]. *)
Lemma failure_after_rename_reports_unchanged :
  ~ failure_reports_progress_spec bob_renamed_midway (main rename_and_key).
Proof.
  intros H.
  assert (Hrun : run (main rename_and_key) bob_renamed_midway
                 = (Abrupt (FailJson (Some false) "The user with name bob cannot be found."),
                    inventory_calls ++
                    [GetUser (Some "bob");
                     GetAllAccessKeys (Some "bob"); GetAllAccessKeys (Some "bob");
                     GetUser (Some "bob");
                     UpdateUser (Some "bob") (Some "robert") None;
                     CreateAccessKey (Some "bob")]))
    by (vm_compute; reflexivity).
  specialize (H _ _ _ Hrun).
  assert (Hc : Some false = Some true); [|discriminate Hc].
  apply H.
  exists (inventory_calls ++
          [GetUser (Some "bob");
           GetAllAccessKeys (Some "bob"); GetAllAccessKeys (Some "bob");
           GetUser (Some "bob")]),
         (UpdateUser (Some "bob") (Some "robert") None),
         [CreateAccessKey (Some "bob")], tt.
  repeat split.
Qed.

Lemma update_user_failure_flag_witness :
  exists pre call err,
    [GetAllAccessKeys (Some "bob"); GetAllAccessKeys (Some "bob");
     GetUser (Some "bob"); UpdateUser (Some "bob") (Some "robert") None;
     CreateAccessKey (Some "bob")] = [] ++ pre ++ [call] /\
    bob_renamed_midway ([] ++ pre) call = Fault err /\
    (is_key_listing call -> Some false = Some (existsb mutating pre)) /\
    (~ is_key_listing call -> Some false <> Some true).
Proof.
  apply (proj1 update_user_failure_flag bob_renamed_midway [] _
           (Some "bob") (Some "robert") None (Some "create") 1 None None false
           (Some false) "The user with name bob cannot be found.").
  vm_compute. reflexivity.
Defined.

(** ** Key creation *)

Section Creates.
Context (iam : Provider) (Hff : fault_free iam).

Lemma creates_ret {A} (a : A) (P : A -> Prop) : P a -> creates iam (ret a) O P.
Proof. intros HP t. by apply wp_ret. Qed.

Lemma creates_call c :
  is_create_key c = false -> is_delete_key c = false ->
  creates iam (call c) O (fun _ => True).
Proof.
  intros Hc Hd t. apply (wp_call iam t c).
  - intros v _. unfold count_calls. simpl. by rewrite Hc, Hd.
  - intros err Herr. by eapply not_fault_free.
Qed.

Lemma creates_create who : creates iam (call (CreateAccessKey who)) 1 (fun _ => True).
Proof.
  intros t. apply (wp_call iam t (CreateAccessKey who)).
  - done.
  - intros err Herr. by eapply not_fault_free.
Qed.

Lemma creates_bind {A B} (m : M A) (k : A -> M B) n1 n2 (P : A -> Prop) (Q : B -> Prop) :
  creates iam m n1 P -> (forall a, P a -> creates iam (k a) n2 Q) ->
  creates iam (bind m k) (n1 + n2) Q.
Proof.
  intros Hm Hk t. apply wp_bind. eapply wp_mono; [apply Hm| |done].
  intros a tr1 (HP & Hc1 & Hd1). eapply wp_mono; [by apply Hk| |done].
  intros b tr2 (HQ & Hc2 & Hd2). unfold after. rewrite !count_calls_app. auto with lia.
Qed.

Lemma creates_weaken {A} (m : M A) n (P Q : A -> Prop) :
  creates iam m n P -> (forall a, P a -> Q a) -> creates iam m n Q.
Proof.
  intros Hm HPQ t. eapply wp_mono; [apply Hm| |done]. intros a tr (? & ? & ?). auto.
Qed.

Lemma creates_try_boto_else {A B} (body : M A) handler (orelse : A -> M B)
    n1 n2 (P : A -> Prop) (Q : B -> Prop) :
  creates iam body n1 P -> (forall a, P a -> creates iam (orelse a) n2 Q) ->
  creates iam (try_boto_else body handler orelse) (n1 + n2) Q.
Proof.
  intros Hm Hk t. apply wp_try_boto_else. eapply wp_mono; [apply Hm| |done].
  intros a tr1 (HP & Hc1 & Hd1). eapply wp_mono; [by apply Hk| |done].
  intros b tr2 (HQ & Hc2 & Hd2). unfold after. rewrite !count_calls_app. auto with lia.
Qed.

Lemma creates_try_boto {A} (body : M A) handler n (P : A -> Prop) :
  creates iam body n P -> creates iam (try_boto body handler) n P.
Proof.
  intros Hm. replace n with (n + 0)%nat by lia.
  eapply creates_try_boto_else; [exact Hm|]. intros a Ha. by apply creates_ret.
Qed.

Lemma creates_for_fold {A S} (body : S -> A -> M S) l :
  (forall acc x, creates iam (body acc x) O (fun _ => True)) ->
  forall acc, creates iam (for_fold l acc body) O (fun _ => True).
Proof.
  intros Hb. induction l as [|x l IH]; intros acc; simpl.
  - by apply creates_ret.
  - change O with (0 + 0)%nat. eapply creates_bind; [apply Hb|]. intros a _. apply IH.
Qed.

(** The key loops: the counter [cnt] advances by one per pass, with one key
    creation, until it reaches [n]. *)
Lemma creates_key_loop {St} (cnt : St -> Z) (body : St -> M St) (n : Z) :
  (forall s, creates iam (body s) 1 (fun s' => cnt s' = cnt s + 1)) ->
  forall fuel s,
    fuel = Z.to_nat (n - cnt s) ->
    creates iam (while_loop fuel (fun s => n >? cnt s) body s) fuel (fun _ => True).
Proof.
  intros Hb. induction fuel as [|fuel IH]; intros s Hfuel; simpl.
  - by apply creates_ret.
  - assert ((n >? cnt s) = true) as -> by (apply Z.gtb_lt; lia).
    change (S fuel) with (1 + fuel)%nat.
    eapply creates_bind; [apply Hb|]. intros s' Hs'. simpl in Hs'. apply IH. lia.
Qed.


Lemma creates_bind_eq {A B} (m : M A) (k : A -> M B) n1 n2 n
    (P : A -> Prop) (Q : B -> Prop) :
  creates iam m n1 P -> (forall a, P a -> creates iam (k a) n2 Q) ->
  n = (n1 + n2)%nat ->
  creates iam (bind m k) n Q.
Proof. intros Hm Hk ->. by eapply creates_bind. Qed.

Lemma creates_try_boto_else_eq {A B} (body : M A) handler (orelse : A -> M B)
    n1 n2 n (P : A -> Prop) (Q : B -> Prop) :
  creates iam body n1 P -> (forall a, P a -> creates iam (orelse a) n2 Q) ->
  n = (n1 + n2)%nat ->
  creates iam (try_boto_else body handler orelse) n Q.
Proof. intros Hm Hk ->. by eapply creates_try_boto_else. Qed.

Lemma creates_count_eq {A} (m : M A) n n' (P : A -> Prop) :
  creates iam m n' P -> n = n' -> creates iam m n P.
Proof. by intros H ->. Qed.

End Creates.


Ltac creates_step :=
  lazymatch goal with
  | |- creates _ (ret _) _ _ => by apply creates_ret
  | |- creates ?iam (call (CreateAccessKey ?n)) _ _ =>
      exact (creates_create iam ltac:(assumption) n)
  | |- creates ?iam (call ?c) _ _ =>
      exact (creates_call iam ltac:(assumption) c eq_refl eq_refl)
  | |- creates _ (bind (read_local _ (Some ?q)) _) _ _ =>
      eapply creates_bind_eq with (P := fun a => a = q);
      [ by apply creates_ret | intros ? -> | ]
  | |- creates _ (bind _ _) _ _ =>
      eapply creates_bind_eq with (P := fun _ => True); [ | intros ? _ | ]
  | |- creates _ (try_boto _ _) _ _ => apply creates_try_boto
  | |- creates _ (try_boto_else _ _ _) _ _ =>
      eapply creates_try_boto_else_eq with (P := fun _ => True); [ | intros ? _ | ]
  | |- creates _ (read_local _ (Some _)) _ _ => by apply creates_ret
  | |- creates _ (for_fold _ _ _) _ _ => apply creates_for_fold; intros ? ?
  | |- creates ?iam (while_loop _ _ _ _) _ _ =>
      eapply (creates_key_loop iam (fun st => st.1));
      [ intros ?; eapply creates_bind_eq with (P := fun _ => True);
        [ exact (creates_create iam ltac:(assumption) _)
        | intros ? _; by apply creates_ret
        | reflexivity ]
      | reflexivity ]
  | |- creates _ (if String.eqb ?a ?b then _ else _) _ _ =>
      let v := eval compute in (String.eqb a b) in
      lazymatch v with
      | true => change (String.eqb a b) with true; cbv iota
      | false => change (String.eqb a b) with false; cbv iota
      | _ => destruct (String.eqb a b) eqn:?; (eapply creates_count_eq; [ | ])
      end
  | |- creates _ (if ?b then _ else _) _ _ =>
      destruct b eqn:?; (eapply creates_count_eq; [ | ])
  | |- creates _ (fetch_keys _) _ _ => unfold fetch_keys
  | |- creates _ (let (_, _) := ?x in _) _ _ => destruct x
  | |- creates _ (match ?x with _ => _ end) _ _ => destruct x
  | |- @eq nat _ _ => first [reflexivity | simpl; lia]
  end.

Lemma create_user_creates (iam : Provider) name pwd path n :
  fault_free iam ->
  creates iam (create_user name pwd path (Some "create") n)
    (Z.to_nat (n - 0)) (fun _ => True).
Proof.
  intros Hff. unfold create_user. rewrite bool_decide_eq_true_2 by done.
  destruct (Z.eqb_spec n 0) as [->|Hn]; simpl negb; cbv iota;
    repeat creates_step.
Qed.


Lemma first_listing (iam : Provider) (t : Trace) who ks handler :
  fault_free iam ->
  iam t (GetAllAccessKeys who) = Ok ks ->
  wp iam t
    (try_boto
       (do ks <- fetch_keys who;
        ret (who, ks.1, ks.2, Some (Z.of_nat (length ks.1))))
       handler)
    (fun r tr => r.2 = Some (Z.of_nat (length ks)) /\
                 tr = [GetAllAccessKeys who; GetAllAccessKeys who])
    (fun _ _ => False).
Proof.
  intros Hff Hks. unfold fetch_keys. wp_steps;
    try (exfalso; by eapply not_fault_free).
  rewrite Hks in H. injection H as <-. simpl. by rewrite length_map.
Qed.

(** C3.  On a provider that accepts the calls, with [access_key_state] set
    to [create] and a target of [n] keys: [create_user], whose new user
    holds no key, issues exactly [n - 0] [create_access_key] calls;
    [update_user], for a user whose key listing has [k] entries, issues
    exactly [n - k] of them when [n >= k] and none when [n <= k] (that is,
    [Z.to_nat (n - k)]), each call creating one key; and neither issues a
    [delete_access_key] call. *)
Theorem key_count_convergence (iam : Provider) (t : Trace) :
  fault_free iam ->
  (forall name pwd path n,
      exists r tr,
        create_user name pwd path (Some "create") n iam t = (Ret r, t ++ tr) /\
        count_calls is_create_key tr = Z.to_nat (n - 0) /\
        count_calls is_delete_key tr = O) /\
  (forall name new_name new_path n keys pwd updated ks,
      let who := if updated && truthy new_name then new_name else name in
      iam t (GetAllAccessKeys who) = Ok ks ->
      exists r tr,
        update_user name new_name new_path (Some "create") n keys pwd updated iam t
          = (Ret r, t ++ tr) /\
        count_calls is_create_key tr = Z.to_nat (n - Z.of_nat (length ks)) /\
        count_calls is_delete_key tr = O).
Proof.
  intros Hff. split.
  - intros name pwd path n.
    pose proof (create_user_creates iam name pwd path n Hff t) as Hwp.
    apply wp_elim in Hwp as (r & tr & Hrun & Hpost).
    destruct r as [r|s]; [|done]. destruct Hpost as (_ & Hc & Hd). eauto.
  - intros name new_name new_path n keys pwd updated ks who Hks.
    assert (Hwp : wp iam t
              (update_user name new_name new_path (Some "create") n keys pwd updated)
              (fun _ tr =>
                 count_calls is_create_key tr = Z.to_nat (n - Z.of_nat (length ks)) /\
                 count_calls is_delete_key tr = O)
              (fun _ _ => False)).
    { unfold update_user. fold who. rewrite bool_decide_eq_true_2 by done.
      apply wp_bind. eapply wp_mono; [by apply first_listing| |done].
      intros [[[nm ck] st] q] tr1 [Hq ->]. simpl in Hq. subst q.
      lazymatch goal with
      | |- wp _ _ ?m _ _ =>
          assert (Hc : creates iam m (Z.to_nat (n - Z.of_nat (length ks)))
                         (fun _ => True))
      end.
      { repeat creates_step. }
      eapply wp_mono; [apply Hc| |done].
      intros r tr2 (_ & Hc2 & Hd2). unfold after. rewrite !count_calls_app.
      rewrite Hc2, Hd2. done. }
    apply wp_elim in Hwp as (r & tr & Hrun & Hpost).
    destruct r as [r|s]; [|done]. destruct Hpost as (Hc & Hd). eauto.
Qed.

Lemma key_count_convergence_witness :
  (exists r tr,
     create_user (Some "alice") None (Some "/") (Some "create") 2 quiet []
       = (Ret r, [] ++ tr) /\
     count_calls is_create_key tr = Z.to_nat (2 - 0) /\
     count_calls is_delete_key tr = O) /\
  (exists r tr,
     update_user (Some "bob") None None (Some "create") 3 None None false
       (bob_holding [("K1", "Active")]) []
       = (Ret r, [] ++ tr) /\
     count_calls is_create_key tr = Z.to_nat (3 - Z.of_nat (length [("K1", "Active")])) /\
     count_calls is_delete_key tr = O).
Proof.
  split.
  - apply (proj1 (key_count_convergence quiet [] quiet_fault_free)).
  - apply (proj2 (key_count_convergence (bob_holding [("K1", "Active")]) []
                    (bob_holding_fault_free _))
             (Some "bob") None None 3 None None false [("K1", "Active")]).
    reflexivity.
Defined.

(** The bound handed to [while_loop] is never what stops a loop that has a
    variant: more passes allowed change nothing. *)
Lemma while_loop_fuel {St} (mu : St -> nat) cond (body : St -> M St) :
  (forall s, cond s = true -> (0 < mu s)%nat) ->
  (forall s iam t s' t',
      cond s = true -> body s iam t = (Ret s', t') -> (mu s' < mu s)%nat) ->
  forall fuel extra s iam t,
    (mu s <= fuel)%nat ->
    while_loop (fuel + extra) cond body s iam t = while_loop fuel cond body s iam t.
Proof.
  intros Hpos Hdec. induction fuel as [|fuel IH]; intros extra s iam t Hmu.
  - destruct (cond s) eqn:Hc.
    + specialize (Hpos s Hc). lia.
    + destruct extra; simpl; [done|]. by rewrite Hc.
  - simpl. destruct (cond s) eqn:Hc; [|done].
    unfold bind. destruct (body s iam t) as [[s'|a] t'] eqn:Hb; [|done].
    apply IH. specialize (Hdec _ _ _ _ _ Hc Hb). lia.
Qed.

(** The key loop of [update_user] is given enough passes. *)
Lemma key_loop_fuel (who : option string) (n q : Z) (changed : bool) extra iam t :
  while_loop (Z.to_nat (n - q) + extra)
    (fun st : Z * bool => n >? st.1)
    (fun st => do _ <- call (CreateAccessKey who); ret (st.1 + 1, true))
    (q, changed) iam t
  = while_loop (Z.to_nat (n - q))
      (fun st : Z * bool => n >? st.1)
      (fun st => do _ <- call (CreateAccessKey who); ret (st.1 + 1, true))
      (q, changed) iam t.
Proof.
  apply (while_loop_fuel (fun st : Z * bool => Z.to_nat (n - st.1))).
  - intros s Hc. apply Z.gtb_lt in Hc. lia.
  - intros s iam' t' s' t'' Hc. apply Z.gtb_lt in Hc.
    unfold bind, call, ret. destruct (iam' t' (CreateAccessKey who)); [|done].
    intros [= <- _]. simpl. lia.
  - simpl. lia.
Qed.

(** ** Present on an account that already matches *)






(** ** A password is applied on every run *)

Section Reaching.
Context (iam : Provider).













End Reaching.








(** * Further properties of the module *)

(** ** Calls issued, however the computation ends *)

Section Only.

Context (P : Call -> Prop) (iam : Provider).

Lemma only_ret {A} (a : A) : only P iam (ret a).
Proof. intros t. by apply wp_ret. Qed.

Lemma only_abort {A} s : only P iam (@abort A s).
Proof. intros t. by apply wp_abort. Qed.

Lemma only_call c : P c -> only P iam (call c).
Proof. intros Hc t. apply (wp_call iam t c); intros; by repeat constructor. Qed.

Lemma only_bind {A B} (m : M A) (k : A -> M B) :
  only P iam m -> (forall a, only P iam (k a)) -> only P iam (bind m k).
Proof.
  intros Hm Hk t. apply wp_bind. eapply wp_mono; [apply Hm| |done].
  intros a tr1 H1. eapply wp_mono; [apply Hk| |];
    intros ? tr2 H2; unfold after; by apply Forall_app.
Qed.

Lemma only_try_boto_else {A B} (body : M A) handler (orelse : A -> M B) :
  only P iam body -> (forall err, only P iam (handler err)) ->
  (forall a, only P iam (orelse a)) ->
  only P iam (try_boto_else body handler orelse).
Proof.
  intros Hb Hh Ho t. apply wp_try_boto_else. eapply wp_mono; [apply Hb| |].
  - intros a tr1 H1. eapply wp_mono; [apply Ho| |];
      intros ? tr2 H2; unfold after; by apply Forall_app.
  - intros s tr1 H1. destruct s as [[err| |]| |]; try exact H1.
    eapply wp_mono; [apply Hh| |];
      intros ? tr2 H2; unfold after; by apply Forall_app.
Qed.

Lemma only_try_boto {A} (body : M A) handler :
  only P iam body -> (forall err, only P iam (handler err)) ->
  only P iam (try_boto body handler).
Proof. intros Hb Hh. apply only_try_boto_else; auto using @only_ret. Qed.

Lemma only_try_exception_else {A B} (body : M A) handler (orelse : A -> M B) :
  only P iam body -> (forall ex, only P iam (handler ex)) ->
  (forall a, only P iam (orelse a)) ->
  only P iam (try_exception_else body handler orelse).
Proof.
  intros Hb Hh Ho t. apply wp_try_exception_else. eapply wp_mono; [apply Hb| |].
  - intros a tr1 H1. eapply wp_mono; [apply Ho| |];
      intros ? tr2 H2; unfold after; by apply Forall_app.
  - intros s tr1 H1. destruct s as [ex| |]; try exact H1.
    eapply wp_mono; [apply Hh| |];
      intros ? tr2 H2; unfold after; by apply Forall_app.
Qed.

Lemma only_try_exception {A} (body : M A) handler :
  only P iam body -> (forall ex, only P iam (handler ex)) ->
  only P iam (try_exception body handler).
Proof. intros Hb Hh. apply only_try_exception_else; auto using @only_ret. Qed.

Lemma only_for_each {A} (body : A -> M unit) l :
  (forall x, only P iam (body x)) -> only P iam (for_each l body).
Proof.
  intros Hb. induction l as [|x l IH]; simpl; [apply only_ret|].
  apply only_bind; auto.
Qed.

Lemma only_for_each_in {A} (body : A -> M unit) (l : list A) :
  (forall x, x ∈ l -> only P iam (body x)) -> only P iam (for_each l body).
Proof.
  induction l as [|x l IH]; intros Hb; simpl; [apply only_ret|].
  apply only_bind.
  - apply Hb. apply elem_of_cons. by left.
  - intros _. apply IH. intros y Hy. apply Hb. apply elem_of_cons. by right.
Qed.

Lemma only_for_fold {A St} (body : St -> A -> M St) l :
  (forall acc x, only P iam (body acc x)) ->
  forall acc, only P iam (for_fold l acc body).
Proof.
  intros Hb. induction l as [|x l IH]; intros acc; simpl; [apply only_ret|].
  apply only_bind; auto.
Qed.

Lemma only_while_loop {St} cond (body : St -> M St) fuel :
  (forall s, only P iam (body s)) -> forall s, only P iam (while_loop fuel cond body s).
Proof.
  intros Hb. induction fuel as [|fuel IH]; intros s; simpl; [apply only_ret|].
  destruct (cond s); [|apply only_ret]. apply only_bind; auto.
Qed.

Lemma only_read_local {A} var (v : option A) : only P iam (read_local var v).
Proof. destruct v; [apply only_ret|apply only_abort]. Qed.

Lemma only_when b m : only P iam m -> only P iam (when b m).
Proof. destruct b; simpl; auto using @only_ret. Qed.

End Only.

Lemma only_elim {A} P iam (m : M A) t :
  only P iam m -> exists tr, (m iam t).2 = t ++ tr /\ Forall P tr.
Proof.
  intros H. destruct (wp_elim _ _ _ _ _ (H t)) as (r & tr & Hrun & Hpost).
  exists tr. rewrite Hrun. split; [done|]. by destruct r.
Qed.

Lemma only_bind_val {A B} P iam (m : M A) (k : A -> M B) (Q : A -> Prop) :
  (forall t, wp iam t m (fun a tr => Forall P tr /\ Q a) (fun _ tr => Forall P tr)) ->
  (forall a, Q a -> only P iam (k a)) -> only P iam (bind m k).
Proof.
  intros Hm Hk t. apply wp_bind. eapply wp_mono; [apply Hm| |done].
  intros a tr1 [H1 HQ]. eapply wp_mono; [by apply Hk| |];
    intros ? tr2 H2; unfold after; by apply Forall_app.
Qed.

Ltac only_step :=
  lazymatch goal with
  | |- only _ _ (ret _) => apply only_ret
  | |- only _ _ (abort _) => apply only_abort
  | |- only _ _ (fail_json _ _) => apply only_abort
  | |- only _ _ (fail_json_on ?m _ _) => destruct m; apply only_abort
  | |- only _ _ (exit_json _ _) => apply only_abort
  | |- only _ _ (raise _) => apply only_abort
  | |- only _ _ (read_local _ _) => apply only_read_local
  | |- only ?P ?iam (call ?c) => refine (only_call P iam c _); simpl; eauto
  | |- only _ _ (bind _ _) => apply only_bind; [|intros ?]
  | |- only _ _ (try_boto _ _) => apply only_try_boto; [|intros ?]
  | |- only _ _ (try_boto_else _ _ _) => apply only_try_boto_else; [|intros ?|intros ?]
  | |- only _ _ (try_exception _ _) => apply only_try_exception; [|intros ?]
  | |- only _ _ (try_exception_else _ _ _) =>
      apply only_try_exception_else; [|intros ?|intros ?]
  | |- only _ _ (for_each _ _) => apply only_for_each; intros ?
  | |- only _ _ (for_fold _ _ _) => apply only_for_fold; intros ? ?
  | |- only _ _ (while_loop _ _ _ _) => apply only_while_loop; intros ?
  | |- only _ _ (when _ _) => apply only_when
  | |- only _ _ (fetch_keys _) => unfold fetch_keys
  | |- only _ _ (if ?b then _ else _) => destruct b eqn:?
  | |- only _ _ (let (_, _) := ?x in _) => destruct x
  | |- only _ _ (match ?x with _ => _ end) => destruct x
  end.

(** ** Computations left through a provider fault *)

Section Raising.

Context (iam : Provider).

Lemma fault_last_frame t tr1 wrap s tr2 :
  fault_last iam (t ++ tr1) wrap s tr2 -> fault_last iam t wrap s (tr1 ++ tr2).
Proof.
  intros (pre & c & err & -> & Hf & ->). exists (tr1 ++ pre), c, err.
  by rewrite !app_assoc.
Qed.

Lemma raising_ret {A} (a : A) : raising iam (ret a).
Proof. intros t. by apply wp_ret. Qed.

Lemma raising_call c : raising iam (call c).
Proof.
  intros t. apply (wp_call iam t c); [done|].
  intros err Hf. exists [], c, err. by rewrite app_nil_r.
Qed.

Lemma raising_bind {A B} (m : M A) (k : A -> M B) :
  raising iam m -> (forall a, raising iam (k a)) -> raising iam (bind m k).
Proof.
  intros Hm Hk t. apply wp_bind. eapply wp_mono; [apply Hm| |done].
  intros a tr1 _. eapply wp_mono; [apply Hk|done|].
  intros s tr2. unfold after. apply fault_last_frame.
Qed.

Lemma raising_for_each {A} (body : A -> M unit) l :
  (forall x, raising iam (body x)) -> raising iam (for_each l body).
Proof.
  intros Hb. induction l as [|x l IH]; simpl; [apply raising_ret|].
  apply raising_bind; auto.
Qed.

Lemma raising_while_loop {St} cond (body : St -> M St) fuel :
  (forall s, raising iam (body s)) -> forall s, raising iam (while_loop fuel cond body s).
Proof.
  intros Hb. induction fuel as [|fuel IH]; intros s; simpl; [apply raising_ret|].
  destruct (cond s); [|apply raising_ret]. apply raising_bind; auto.
Qed.

Lemma raising_when b (m : M unit) : raising iam m -> raising iam (when b m).
Proof. intros Hm. destruct b; simpl; [done|apply raising_ret]. Qed.

End Raising.

Ltac raising_step :=
  lazymatch goal with
  | |- raising _ (ret _) => apply raising_ret
  | |- raising ?iam (call ?c) => exact (raising_call iam c)
  | |- raising _ (bind _ _) => apply raising_bind; [|intros ?]
  | |- raising _ (for_each _ _) => apply raising_for_each; intros ?
  | |- raising _ (while_loop _ _ _ _) => apply raising_while_loop; intros ?
  | |- raising _ (when _ _) => apply raising_when
  | |- raising _ (if ?b then _ else _) => destruct b
  | |- raising _ (match ?x with _ => _ end) => destruct x
  end.

Section Crashing.

Context (iam : Provider).

Lemma crash_ok_frame t tr1 s tr2 :
  crash_ok iam (t ++ tr1) s tr2 -> crash_ok iam t s (tr1 ++ tr2).
Proof.
  destruct s as [ex| |]; simpl; [|done|done].
  intros (pre & c & err & -> & Hf & Hex). exists (tr1 ++ pre), c, err.
  by rewrite !app_assoc.
Qed.

Lemma crashing_ret {A} (a : A) : crashing iam (ret a).
Proof. intros t. by apply wp_ret. Qed.

Lemma crashing_exit {A} c f : crashing iam (@exit_json A c f).
Proof. intros t. by apply wp_exit_json. Qed.

Lemma crashing_call c : crashing iam (call c).
Proof.
  intros t. apply (wp_call iam t c); [done|].
  intros err Hf. exists [], c, err. rewrite app_nil_r. auto.
Qed.

Lemma crashing_bind {A B} (m : M A) (k : A -> M B) :
  crashing iam m -> (forall a, crashing iam (k a)) -> crashing iam (bind m k).
Proof.
  intros Hm Hk t. apply wp_bind. eapply wp_mono; [apply Hm| |done].
  intros a tr1 _. eapply wp_mono; [apply Hk|done|].
  intros s tr2. unfold after. apply crash_ok_frame.
Qed.

Lemma crashing_for_each {A} (body : A -> M unit) l :
  (forall x, crashing iam (body x)) -> crashing iam (for_each l body).
Proof.
  intros Hb. induction l as [|x l IH]; simpl; [apply crashing_ret|].
  apply crashing_bind; auto.
Qed.

Lemma crashing_after_no_module {A} c msg :
  crashing_after iam (@fail_json_on A None c msg).
Proof.
  intros t tr1 (pre & c0 & err & -> & Hf). apply wp_raise. unfold after.
  rewrite app_nil_r. exists pre, c0, err. auto.
Qed.

Lemma crashing_after_crashing {A} (m : M A) : crashing iam m -> crashing_after iam m.
Proof.
  intros Hm t tr1 _. eapply wp_mono; [apply Hm|done|].
  intros s tr2. unfold after. apply crash_ok_frame.
Qed.

Lemma crashing_try_boto_else {A B} (body : M A) handler (orelse : A -> M B) :
  crashing iam body -> (forall err, crashing_after iam (handler err)) ->
  (forall a, crashing iam (orelse a)) ->
  crashing iam (try_boto_else body handler orelse).
Proof.
  intros Hb Hh Ho t. apply wp_try_boto_else. eapply wp_mono; [apply Hb| |].
  - intros a tr1 _. eapply wp_mono; [apply Ho|done|].
    intros s tr2. unfold after. apply crash_ok_frame.
  - intros [[err|v|msg]| |] tr1 Hs; try done.
    destruct Hs as (pre & c & err' & -> & Hf & Hex).
    eapply wp_mono; [apply Hh; eauto|done|done].
Qed.

Lemma crashing_try_boto {A} (body : M A) handler :
  crashing iam body -> (forall err, crashing_after iam (handler err)) ->
  crashing iam (try_boto body handler).
Proof. intros. apply crashing_try_boto_else; auto using @crashing_ret. Qed.

End Crashing.

Ltac crashing_step :=
  lazymatch goal with
  | |- crashing _ (ret _) => apply crashing_ret
  | |- crashing _ (exit_json _ _) => apply crashing_exit
  | |- crashing ?iam (call ?c) => exact (crashing_call iam c)
  | |- crashing _ (bind _ _) => apply crashing_bind; [|intros ?]
  | |- crashing _ (for_each _ _) => apply crashing_for_each; intros ?
  | |- crashing _ (try_boto _ _) => apply crashing_try_boto; [|intros ?]
  | |- crashing _ (try_boto_else _ _ _) =>
      apply crashing_try_boto_else; [|intros ?|intros ?]
  | |- crashing_after _ (fail_json_on None _ _) => apply crashing_after_no_module
  | |- crashing_after _ (if ?b then _ else _) => destruct b
  | |- crashing_after _ _ => apply crashing_after_crashing
  | |- crashing _ (if ?b then _ else _) => destruct b
  | |- crashing _ (let (_, _) := ?x in _) => destruct x
  | |- crashing _ (match ?x with _ => _ end) => destruct x
  end.

(** ** Parameter checks and inventory *)

(** X1.  The parameter checks of [main] end the invocation before any provider
    call.  When [access_key_state] does not name [active] or [inactive]: a
    password with an [iam_type] other than [user] fails with the password
    message; otherwise an [access_key_state] with an [iam_type] other than
    [user] fails with the access-key message; otherwise [role] with
    [state=update] fails with [changed=False].  The first two failures carry
    no [changed] field at all. *)
Theorem parameter_checks_precede_calls (iam : Provider) (p : Params) :
  names_activation p = false ->
  (iam_type p <> user -> password p <> None ->
   run (main p) iam
     = (Abrupt (FailJson None
          "a password is being specified when the iam_type is not user. Check parameters"),
        [])) /\
  (iam_type p <> user -> password p = None -> access_key_state p <> None ->
   run (main p) iam
     = (Abrupt (FailJson None
          "the IAM type must be user, when IAM access keys are being modified. Check parameters"),
        [])) /\
  (iam_type p = role -> state p = update ->
   password p = None -> access_key_state p = None ->
   run (main p) iam
     = (Abrupt (FailJson (Some false)
          "iam_type: role, cannot currently be updated, please specificy present or absent"),
        [])).
Proof.
  destruct p as [ty gs st pw up ks ids kc n nn pa np].
  unfold names_activation, run, main; simpl. intros Hact.
  destruct (truthy ks) eqn:Hks; simpl in Hact; [rewrite Hact|];
    (repeat split;
     [ intros Hty Hpw; destruct ty, pw; done
     | intros Hty -> Hk; destruct ty, ks; done
     | intros -> -> -> ->; done ]).
Qed.

Lemma parameter_checks_precede_calls_witness :
  run (main group_with_password) quiet
    = (Abrupt (FailJson None
         "a password is being specified when the iam_type is not user. Check parameters"),
       []).
Proof.
  apply (proj1 (parameter_checks_precede_calls quiet group_with_password eq_refl));
    discriminate.
Defined.

Lemma lower_ascii_idem c : lower_ascii (lower_ascii c) = lower_ascii c.
Proof. destruct c as [[] [] [] [] [] [] [] []]; reflexivity. Qed.

Lemma lower_idem s : lower (lower s) = lower s.
Proof. induction s as [|c s IH]; simpl; [done|]. by rewrite lower_ascii_idem, IH. Qed.

Lemma truthy_lower s : truthy (Some (lower s)) = truthy (Some s).
Proof. by destruct s. Qed.

(** X2.  [main] lower-cases [access_key_state] before anything reads it:
    whatever the provider and the other parameters, the invocation with a
    directive [ks] and the invocation with [lower ks] end the same way after
    the same calls. *)
Theorem key_state_case_insensitive (iam : Provider) ty gs st pw up ids kc n nn pa np ks :
  run (main (mkParams ty gs st pw up (Some ks) ids kc n nn pa np)) iam
    = run (main (mkParams ty gs st pw up (Some (lower ks)) ids kc n nn pa np)) iam.
Proof.
  destruct ks as [|c ks]; [reflexivity|].
  unfold run, main.
  cbn [access_key_state iam_type password state].
  change (default EmptyString (Some (lower (String c ks)))) with (lower (String c ks)).
  change (default EmptyString (Some (String c ks))) with (String c ks).
  rewrite truthy_lower, lower_idem.
  change (truthy (Some (String c ks))) with true. cbv iota.
  destruct ty; reflexivity.
Qed.

(** X3.  The inventory is read by [get_all_groups], [get_all_users],
    [list_roles] and [list_instance_profiles], in that order.  It stops at
    the first of them that faults, and then fails with that fault's
    [message] and no [changed] field; if none faults all four calls are
    issued and the snapshot returned holds the provider's four answers, in
    that order. *)
Theorem inventory_reads_or_fails (iam : Provider) (t : Trace) :
  exists tr post,
    (inventory iam t).2 = t ++ tr /\
    inventory_calls = tr ++ post /\
    match (inventory iam t).1 with
    | Ret (gl, ul, rl, pl) =>
        post = [] /\
        iam t GetAllGroups = Ok gl /\
        iam (t ++ [GetAllGroups]) GetAllUsers = Ok ul /\
        iam (t ++ [GetAllGroups; GetAllUsers]) ListRoles = Ok rl /\
        iam (t ++ [GetAllGroups; GetAllUsers; ListRoles]) ListInstanceProfiles = Ok pl
    | Abrupt s =>
        exists pre c err,
          tr = pre ++ [c] /\ iam (t ++ pre) c = Fault err /\
          s = FailJson None (message err)
    end.
Proof.
  unfold inventory, try_boto, try_boto_else, bind, call, ret, fail_json, abort.
  destruct (iam t GetAllGroups) as [gl|e1] eqn:H1; simpl.
  - destruct (iam (t ++ [GetAllGroups]) GetAllUsers) as [ul|e2] eqn:H2; simpl.
    + destruct (iam ((t ++ [GetAllGroups]) ++ [GetAllUsers]) ListRoles)
        as [rl|e3] eqn:H3; simpl.
      * destruct (iam (((t ++ [GetAllGroups]) ++ [GetAllUsers]) ++ [ListRoles])
                    ListInstanceProfiles) as [pl|e4] eqn:H4; simpl.
        -- exists inventory_calls, []. repeat (rewrite <- app_assoc in H3; simpl in H3).
           repeat (rewrite <- app_assoc in H4; simpl in H4).
           repeat (rewrite <- app_assoc; simpl). done.
        -- exists inventory_calls, []. rewrite <- !app_assoc. repeat split.
           exists [GetAllGroups; GetAllUsers; ListRoles], ListInstanceProfiles, e4.
           rewrite <- !app_assoc in H4. done.
      * exists [GetAllGroups; GetAllUsers; ListRoles], [ListInstanceProfiles].
        rewrite <- !app_assoc. repeat split.
        exists [GetAllGroups; GetAllUsers], ListRoles, e3.
        rewrite <- !app_assoc in H3. done.
    + exists [GetAllGroups; GetAllUsers], [ListRoles; ListInstanceProfiles].
      rewrite <- !app_assoc. repeat split.
      by exists [GetAllGroups], GetAllUsers, e2.
  - exists [GetAllGroups], [GetAllUsers; ListRoles; ListInstanceProfiles].
    repeat split. exists [], GetAllGroups, e1. by rewrite app_nil_r.
Qed.

(** ** Users *)

(** X4.  However [create_user] fails, it fails through
    [fail_json(changed=False, msg=str(err))] where [err] is the fault of the
    last call it issued.  That includes a fault that follows an accepted
    [create_user] call (a refused password or access key): the user then
    exists and the failure still says [changed=False]. *)
Theorem create_user_failure_reports_unchanged (iam : Provider) (t t' : Trace)
    (name pwd path key_state : option string) (key_count : Z) (s : Abort) :
  create_user name pwd path key_state key_count iam t = (Abrupt s, t') ->
  exists pre c err,
    t' = t ++ pre ++ [c] /\ iam (t ++ pre) c = Fault err /\
    s = FailJson (Some false) (to_str err) /\
    (pre <> [] -> iam t (CreateUser name path) = Ok tt).
Proof.
  intros Hrun.
  assert (Hwp : wp iam t (create_user name pwd path key_state key_count)
                  (fun _ _ => True)
                  (fun s tr =>
                     fault_last iam t (fun err => FailJson (Some false) (to_str err)) s tr /\
                     (forall pre c, tr = pre ++ [c] -> pre <> [] ->
                                    iam t (CreateUser name path) = Ok tt))).
  { unfold create_user. apply wp_try_boto_else. apply wp_bind.
    apply (wp_call iam t (CreateUser name path)).
    - intros [] Hok.
      lazymatch goal with
      | |- wp _ _ ?m _ _ => assert (Hm : raising iam m) by repeat raising_step
      end.
      eapply wp_mono; [apply Hm| |].
      + intros [[[um pw] ks] ch] tr _. unfold after. by apply wp_ret.
      + intros s0 tr (pre & c & err & -> & Hf & ->). unfold after. cbv beta iota.
        apply wp_fail_json. unfold after. split; [|done].
        exists (CreateUser name path :: pre), c, err. rewrite app_nil_r.
        repeat split; try done. by rewrite <- app_assoc in Hf.
    - intros err Hf. cbv beta iota. apply wp_fail_json. unfold after. split.
      + exists [], (CreateUser name path), err. by rewrite !app_nil_r.
      + intros pre c Heq Hne. destruct pre as [|? [|]]; done. }
  apply wp_elim in Hwp as (r & tr & Hrun' & Hpost). rewrite Hrun in Hrun'.
  injection Hrun' as <- ->. destruct Hpost as ((pre & c & err & -> & Hf & ->) & Hfirst).
  exists pre, c, err. repeat split; try done. intros Hne. by eapply Hfirst.
Qed.

Lemma create_user_failure_reports_unchanged_witness :
  exists pre c err,
    [CreateUser (Some "bob") (Some "/"); CreateLoginProfile (Some "bob") (Some "s3cret")]
      = [] ++ pre ++ [c] /\
    strict_password_policy ([] ++ pre) c = Fault err /\
    FailJson (Some false) (to_str weak_password) = FailJson (Some false) (to_str err) /\
    (pre <> [] -> strict_password_policy [] (CreateUser (Some "bob") (Some "/")) = Ok tt).
Proof.
  apply (create_user_failure_reports_unchanged strict_password_policy [] _
           (Some "bob") (Some "s3cret") (Some "/") (Some "create") 1).
  reflexivity.
Defined.

(** X5.  When the key listing succeeds, the key deletions are accepted and
    [get_login_profiles] faults, [delete_user] deletes every listed access
    key in listing order, then asks for the login profile, deletes the login
    profile only if the fault is not the cannot-find one, deletes the user
    last, and returns [changed=True] with the name. *)
Theorem delete_user_calls_when_accepted (iam : Provider) (t : Trace)
    (name : option string) keys e :
  iam t (GetAllAccessKeys name) = Ok keys ->
  (forall t' k, iam t' (DeleteAccessKey k name) = Ok tt) ->
  let cleared :=
    t ++ [GetAllAccessKeys name] ++ map (fun k => DeleteAccessKey k.1 name) keys in
  iam cleared (GetLoginProfiles name) = Fault e ->
  (forall t', iam t' (DeleteLoginProfile name) = Ok tt) ->
  (forall t', iam t' (DeleteUser name) = Ok tt) ->
  delete_user name iam t
    = (Ret (VResp, name, true),
       cleared ++ [GetLoginProfiles name]
         ++ (if contains "Cannot find Login Profile" (error_message e) then []
             else [DeleteLoginProfile name])
         ++ [DeleteUser name]).
Proof.
  intros Hkeys Hdel cleared Hlogin Hdlp Hdu.
  assert (Hloop : forall l t',
             for_each l (fun key => call (DeleteAccessKey key name)) iam t'
             = (Ret tt, t' ++ map (fun k => DeleteAccessKey k name) l)).
  { induction l as [|x l IH]; intros t'; simpl.
    - unfold ret. by rewrite app_nil_r.
    - unfold bind, call at 1. rewrite Hdel, IH. by rewrite <- app_assoc. }
  unfold delete_user, try_exception_else.
  unfold bind at 1, call at 1. rewrite Hkeys.
  unfold bind at 1. rewrite Hloop, map_map.
  replace ((t ++ [GetAllAccessKeys name])
             ++ map (fun x => DeleteAccessKey x.1 name) keys)
    with cleared by (subst cleared; by rewrite <- app_assoc).
  unfold try_boto, try_boto_else. unfold bind at 1, call at 1. rewrite Hlogin.
  unfold boto_exception.
  destruct (contains "Cannot find Login Profile" (error_message e)).
  - unfold bind, call. rewrite Hdu. unfold ret. by rewrite <- !app_assoc.
  - unfold bind, call. rewrite Hdlp, Hdu. unfold ret. by rewrite <- !app_assoc.
Qed.

Lemma delete_user_calls_when_accepted_witness :
  delete_user (Some "bob") bob_two_keys []
    = (Ret (VResp, Some "bob", true),
       ([] ++ [GetAllAccessKeys (Some "bob")]
           ++ map (fun k : string * string => DeleteAccessKey k.1 (Some "bob"))
                [("K1", "Active"); ("K2", "Inactive")])
         ++ [GetLoginProfiles (Some "bob")]
         ++ (if contains "Cannot find Login Profile" (error_message no_login_profile)
             then [] else [DeleteLoginProfile (Some "bob")])
         ++ [DeleteUser (Some "bob")]).
Proof.
  apply (delete_user_calls_when_accepted bob_two_keys [] (Some "bob")
           [("K1", "Active"); ("K2", "Inactive")] no_login_profile);
    first [reflexivity | intros; reflexivity].
Defined.

(** X6.  With no new name, no new path, no password and no
    [access_key_state], [update_user] issues nothing but
    [get_all_access_keys] calls, whatever the provider answers and whatever
    key ids are listed. *)
Theorem update_user_read_only (iam : Provider) (t : Trace) name new_name new_path
    key_count keys pwd updated :
  truthy new_name = false -> truthy new_path = false -> truthy pwd = false ->
  exists tr,
    (update_user name new_name new_path None key_count keys pwd updated iam t).2
      = t ++ tr /\
    Forall is_key_listing tr.
Proof.
  intros Hnn Hnp Hpw. apply only_elim. unfold update_user.
  rewrite Hnn, Hnp, Hpw. destruct keys as [[|k ks]|]; simpl;
    repeat only_step; by eexists.
Qed.

Lemma update_user_read_only_witness :
  exists tr,
    (update_user (Some "bob") None None None 1 (Some ["K1"]) None false quiet []).2
      = [] ++ tr /\
    Forall is_key_listing tr.
Proof.
  apply (update_user_read_only quiet [] (Some "bob") None None 1 (Some ["K1"]) None false);
    reflexivity.
Defined.

(** X7.  When [updated] is false, every call [update_user] issues is addressed
    to [name], whatever the provider answers: after its own rename to
    [new_name] has been accepted, the password, access-key and final listing
    calls still go to the old name. *)
Theorem update_user_keeps_old_name (iam : Provider) (t : Trace) name new_name new_path
    key_state key_count keys pwd :
  exists tr,
    (update_user name new_name new_path key_state key_count keys pwd false iam t).2
      = t ++ tr /\
    Forall (about name) tr.
Proof.
  apply only_elim. unfold update_user.
  change (false && truthy new_name) with false. cbv iota.
  apply only_bind_val with (Q := fun r => r.1.1.1 = name).
  { intros t0. unfold fetch_keys.
    wp_steps;
      try match goal with
          | H : _ && false = true |- _ => rewrite andb_false_r in H; discriminate H
          end;
      simpl; rewrite ?app_nil_r; repeat constructor; done. }
  intros [[[nm ck] st] q] Hnm. simpl in Hnm. subst nm.
  repeat only_step; try discriminate.
Qed.

(** X8.  With an empty or missing password, [update_user] never issues
    [update_login_profile] or [create_login_profile], whatever the provider
    answers and whatever else is requested. *)
Theorem update_user_without_password (iam : Provider) (t : Trace) name new_name
    new_path key_state key_count keys pwd updated :
  truthy pwd = false ->
  exists tr,
    (update_user name new_name new_path key_state key_count keys pwd updated iam t).2
      = t ++ tr /\
    Forall (fun c => is_login_call c = false) tr.
Proof.
  intros Hpw. apply only_elim. unfold update_user. rewrite Hpw.
  repeat only_step.
Qed.

Lemma update_user_without_password_witness :
  exists tr,
    (update_user (Some "bob") (Some "robert") None (Some "create") 2 None None
       false quiet []).2 = [] ++ tr /\
    Forall (fun c => is_login_call c = false) tr.
Proof.
  apply (update_user_without_password quiet [] (Some "bob") (Some "robert") None
           (Some "create") 2 None None false).
  reflexivity.
Defined.

(** X9.  With nothing to rename or move and a password to apply, when both
    [update_login_profile] and the [create_login_profile] tried after it
    fault, [update_user] stops there.  The text examined is the second
    fault's [str] behind the prefix that [boto_exception] gives a plain
    string; if it mentions the password policy the failure is the fixed
    policy message with [changed=False], otherwise it is that prefixed text
    with no [changed] field. *)
Theorem update_user_password_refused_twice (iam : Provider) (t : Trace)
    (name new_name new_path key_state : option string) (key_count : Z)
    (keys : option (list string)) (pwd : option string) (updated : bool) k1 k2 e1 e2 :
  truthy new_name = false -> truthy new_path = false -> truthy pwd = true ->
  let listed := t ++ [GetAllAccessKeys name; GetAllAccessKeys name] in
  iam t (GetAllAccessKeys name) = Ok k1 ->
  iam (t ++ [GetAllAccessKeys name]) (GetAllAccessKeys name) = Ok k2 ->
  iam listed (UpdateLoginProfile name pwd) = Fault e1 ->
  iam (listed ++ [UpdateLoginProfile name pwd]) (CreateLoginProfile name pwd) = Fault e2 ->
  update_user name new_name new_path key_state key_count keys pwd updated iam t
    = (Abrupt
         (if contains "Password does not conform to the account password policy"
               ("<type 'exceptions.Exception'>: " +:+ to_str e2)
          then FailJson (Some false) "Passsword doesn't conform to policy"
          else FailJson None ("<type 'exceptions.Exception'>: " +:+ to_str e2)),
       listed ++ [UpdateLoginProfile name pwd; CreateLoginProfile name pwd]).
Proof.
  intros Hnn Hnp Hpw listed H1 H2 H3 H4. unfold update_user.
  rewrite Hnn, Hnp, Hpw, andb_false_r. cbv iota. simpl orb. cbv iota.
  unfold try_boto at 1, try_boto_else, fetch_keys.
  unfold bind at 1. unfold bind at 1. unfold bind at 1. unfold call at 1.
  rewrite H1. unfold bind at 1, call at 1. rewrite H2. unfold ret at 1 2 3.
  unfold bind at 1. unfold ret at 1. unfold bind at 1.
  unfold try_boto at 1, try_boto_else. unfold bind at 1, call at 1.
  replace ((t ++ [GetAllAccessKeys name]) ++ [GetAllAccessKeys name]) with listed
    by (subst listed; by rewrite <- app_assoc).
  rewrite H3. unfold try_boto at 1, try_boto_else. unfold bind at 1, call at 1.
  rewrite H4. unfold boto_exception_str.
  replace ((listed ++ [UpdateLoginProfile name pwd]) ++ [CreateLoginProfile name pwd])
    with (listed ++ [UpdateLoginProfile name pwd; CreateLoginProfile name pwd])
    by (by rewrite <- app_assoc).
  by destruct (contains _ _).
Qed.

Lemma update_user_password_refused_twice_witness :
  update_user (Some "bob") None None None 1 None (Some "s3cret") false
    strict_password_policy []
    = (Abrupt
         (if contains "Password does not conform to the account password policy"
               ("<type 'exceptions.Exception'>: " +:+ to_str weak_password)
          then FailJson (Some false) "Passsword doesn't conform to policy"
          else FailJson None ("<type 'exceptions.Exception'>: " +:+ to_str weak_password)),
       ([] ++ [GetAllAccessKeys (Some "bob"); GetAllAccessKeys (Some "bob")])
         ++ [UpdateLoginProfile (Some "bob") (Some "s3cret");
             CreateLoginProfile (Some "bob") (Some "s3cret")]).
Proof.
  apply (update_user_password_refused_twice strict_password_policy [] (Some "bob")
           None None None 1 None (Some "s3cret") false [] [] weak_password weak_password);
    reflexivity.
Defined.

(** X10.  When the membership listing succeeds, every later call of
    [set_users_groups] is either an [add_user_to_group] for a requested
    group the user is not in or a [remove_user_from_group] for a held group
    that is not requested, however the provider answers them: no call is
    issued for a group that is both held and requested. *)
Theorem set_users_groups_spares_kept_groups (iam : Provider) (t : Trace)
    (name : option string) (groups : list string) (updated : bool)
    (new_name : option string) (orig : list string) :
  let who := if updated then new_name else name in
  iam t (GetGroupsForUser who) = Ok orig ->
  exists tr,
    (set_users_groups name groups updated new_name iam t).2
      = t ++ GetGroupsForUser who :: tr /\
    Forall (fun c =>
              (exists g, c = AddUserToGroup g who /\ g ∈ groups /\ g ∉ orig) \/
              (exists g, c = RemoveUserFromGroup g who /\ g ∈ orig /\ g ∉ groups)) tr.
Proof.
  intros who Hget.
  set (P := fun c =>
              (exists g, c = AddUserToGroup g who /\ g ∈ groups /\ g ∉ orig) \/
              (exists g, c = RemoveUserFromGroup g who /\ g ∈ orig /\ g ∉ groups)).
  unfold set_users_groups. fold who.
  unfold try_boto_else. unfold bind at 1, call at 1. rewrite Hget. unfold ret at 1.
  lazymatch goal with
  | |- context [(?m iam (t ++ [GetGroupsForUser who]))] =>
      assert (Hm : only P iam m)
  end.
  { only_step; [|only_step]. destruct orig as [|o orig'].
    - simpl. apply only_for_each_in. intros g Hg. repeat only_step.
      left. exists g. repeat split; [done|]. apply not_elem_of_nil.
    - change (0 <? length (o :: orig'))%nat with true. cbv iota.
      only_step.
      + apply only_for_each_in. intros g Hg%elem_of_elements. only_step.
        left. exists g. set_solver.
      + apply only_for_each_in. intros g Hg%elem_of_elements. only_step.
        right. exists g. set_solver. }
  destruct (only_elim _ _ _ (t ++ [GetGroupsForUser who]) Hm) as (tr & Htr & Hall).
  exists tr. rewrite Htr. by rewrite <- app_assoc.
Qed.

Lemma set_users_groups_spares_kept_groups_witness :
  exists tr,
    (set_users_groups (Some "bob") ["b"; "c"] false None bob_in_a_b []).2
      = [] ++ GetGroupsForUser (Some "bob") :: tr /\
    Forall (fun c =>
              (exists g, c = AddUserToGroup g (Some "bob") /\
                         g ∈ ["b"; "c"] /\ g ∉ ["a"; "b"]) \/
              (exists g, c = RemoveUserFromGroup g (Some "bob") /\
                         g ∈ ["a"; "b"] /\ g ∉ ["b"; "c"])) tr.
Proof.
  apply (set_users_groups_spares_kept_groups bob_in_a_b [] (Some "bob") ["b"; "c"]
           false None ["a"; "b"]).
  reflexivity.
Defined.

(** X11.  For a user who is in at least one group, a refused
    [add_user_to_group] or [remove_user_from_group] is not handled: whenever
    [set_users_groups] does not return, it is left through the provider
    fault of its last call, as an exception and not through [fail_json]. *)
Theorem set_users_groups_fault_with_memberships (iam : Provider) (t t' : Trace)
    (name : option string) (groups : list string) (updated : bool)
    (new_name : option string) (orig : list string) (s : Abort) :
  let who := if updated then new_name else name in
  iam t (GetGroupsForUser who) = Ok orig ->
  orig <> [] ->
  set_users_groups name groups updated new_name iam t = (Abrupt s, t') ->
  exists pre c err,
    t' = t ++ pre ++ [c] /\ iam (t ++ pre) c = Fault err /\ s = Raise (BotoErr err).
Proof.
  intros who Hget Hne Hrun.
  assert (Hwp : wp iam t (set_users_groups name groups updated new_name)
                  (fun _ _ => True)
                  (fault_last iam t (fun err => Raise (BotoErr err)))).
  { unfold set_users_groups. fold who. apply wp_try_boto_else. apply wp_bind.
    apply (wp_call iam t (GetGroupsForUser who)); [|congruence].
    intros v Hv. rewrite Hget in Hv. injection Hv as <-.
    apply wp_ret. unfold after. rewrite app_nil_r.
    destruct orig as [|o orig']; [done|].
    change (0 <? length (o :: orig'))%nat with true. cbv iota.
    lazymatch goal with
    | |- wp _ _ ?m _ _ => assert (Hm : raising iam m) by repeat raising_step
    end.
    eapply wp_mono; [apply Hm|done|].
    intros s0 tr. apply fault_last_frame. }
  apply wp_elim in Hwp as (r & tr & Hrun' & Hpost). rewrite Hrun in Hrun'.
  injection Hrun' as <- ->. destruct Hpost as (pre & c & err & -> & Hf & ->).
  by exists pre, c, err.
Qed.

Lemma set_users_groups_fault_with_memberships_witness :
  exists pre c err,
    [GetGroupsForUser (Some "bob"); AddUserToGroup "b" (Some "bob")] = [] ++ pre ++ [c] /\
    bob_in_a_frozen ([] ++ pre) c = Fault err /\
    Raise (BotoErr (fault_of "User is not authorized to perform iam:AddUserToGroup"))
      = Raise (BotoErr err).
Proof.
  apply (set_users_groups_fault_with_memberships bob_in_a_frozen [] _
           (Some "bob") ["a"; "b"] false None ["a"]);
    [reflexivity | discriminate | reflexivity].
Defined.

(** X12.  For a user who is in no group, when the additions before [g] are
    accepted and the addition to [g] faults with the cannot-be-found text
    for [g], [set_users_groups] fails with [changed=False] and the message
    that names [g]; the groups after [g] get no call, and the accepted
    additions stay. *)
Theorem set_users_groups_names_missing_group (iam : Provider) (t : Trace)
    (name : option string) (before after_ : list string) (g : string)
    (updated : bool) (new_name : option string) (e : BotoServerError) :
  let who := if updated then new_name else name in
  let added := t ++ [GetGroupsForUser who] ++ map (fun x => AddUserToGroup x who) before in
  iam t (GetGroupsForUser who) = Ok [] ->
  (forall t' x, x ∈ before -> iam t' (AddUserToGroup x who) = Ok tt) ->
  iam added (AddUserToGroup g who) = Fault e ->
  contains ("The group with name " +:+ g +:+ " cannot be found.") (error_message e) = true ->
  set_users_groups name (before ++ g :: after_) updated new_name iam t
    = (Abrupt (FailJson (Some false) ("Group " +:+ g +:+ " doesn't exist")),
       added ++ [AddUserToGroup g who]).
Proof.
  intros who added Hget Hok Hf Hmsg. unfold set_users_groups. fold who.
  unfold try_boto_else. unfold bind at 1, call at 1. rewrite Hget. unfold ret at 1.
  change (0 <? length (@nil string))%nat with false. cbv iota.
  unfold bind at 1.
  assert (Hloop : forall l1 t1,
             (forall x, x ∈ l1 -> x ∈ before) ->
             iam (t1 ++ map (fun x => AddUserToGroup x who) l1) (AddUserToGroup g who)
               = Fault e ->
             for_each (l1 ++ g :: after_) (fun group =>
               try_boto (call (AddUserToGroup group who))
                 (fun err =>
                    let error_msg := boto_exception err in
                    if contains ("The group with name " +:+ group +:+ " cannot be found.")
                         error_msg
                    then fail_json (Some false) ("Group " +:+ group +:+ " doesn't exist")
                    else ret tt)) iam t1
             = (Abrupt (FailJson (Some false) ("Group " +:+ g +:+ " doesn't exist")),
                t1 ++ map (fun x => AddUserToGroup x who) l1 ++ [AddUserToGroup g who])).
  { induction l1 as [|x l1 IH]; intros t1 Hin Hfault; simpl.
    - simpl in Hfault. rewrite app_nil_r in Hfault.
      unfold bind, try_boto, try_boto_else, call. rewrite Hfault.
      unfold boto_exception. by rewrite Hmsg.
    - unfold bind at 1, try_boto at 1, try_boto_else, call at 1.
      rewrite (Hok t1 x) by (apply Hin, elem_of_cons; by left).
      unfold ret at 1. rewrite IH.
      + by rewrite <- app_assoc.
      + intros y Hy. apply Hin, elem_of_cons. by right.
      + simpl in Hfault. by rewrite <- app_assoc. }
  rewrite Hloop; [|done|].
  - subst added. by rewrite <- !app_assoc.
  - subst added. by rewrite app_assoc in Hf.
Qed.

Lemma set_users_groups_names_missing_group_witness :
  set_users_groups (Some "bob") (["g1"] ++ "g2" :: ["g3"]) false None no_group_g2 []
    = (Abrupt (FailJson (Some false) ("Group " +:+ "g2" +:+ " doesn't exist")),
       ([] ++ [GetGroupsForUser (Some "bob")]
           ++ map (fun x => AddUserToGroup x (Some "bob")) ["g1"])
         ++ [AddUserToGroup "g2" (Some "bob")]).
Proof.
  apply (set_users_groups_names_missing_group no_group_g2 [] (Some "bob") ["g1"] ["g3"]
           "g2" false None (fault_of "The group with name g2 cannot be found."));
    [reflexivity | | reflexivity | reflexivity].
  intros t' x Hx. apply list_elem_of_singleton in Hx as ->. reflexivity.
Defined.

(** X13.  With [update_password=on_create], an invocation for a user that the
    inventory lists (under [name] or [new_name]) never issues
    [create_login_profile] or [update_login_profile], whatever [state], the
    other parameters and the provider's answers. *)
Theorem on_create_leaves_password_alone (p : Params) (iam : Provider) gl ul rl pl :
  iam_type p = user ->
  update_password p = "on_create" ->
  names_activation p = false ->
  inventory iam [] = (Ret (gl, ul, rl, pl), inventory_calls) ->
  (exists x, x ∈ ul /\ (Some x = name p \/ Some x = new_name p)) ->
  exists tr,
    (run (main p) iam).2 = inventory_calls ++ tr /\
    Forall (fun c => is_login_call c = false) tr.
Proof.
  intros Hty Hup Hact Hinv Hex.
  rewrite (main_dispatch p iam gl ul rl pl Hact (or_introl Hty)
             ltac:(congruence) Hinv), Hty.
  apply only_elim. unfold main_user. rewrite (user_listed _ _ _ Hex), Hup.
  change (String.eqb "on_create" "on_create") with true. cbv iota.
  rewrite andb_false_r. simpl negb. rewrite andb_false_l, !andb_true_r.
  unfold update_user, set_users_groups, delete_user. simpl truthy.
  repeat only_step.
Qed.

Lemma on_create_leaves_password_alone_witness :
  exists tr,
    (run (main present_bob_on_create) (listing ["bob"])).2 = inventory_calls ++ tr /\
    Forall (fun c => is_login_call c = false) tr.
Proof.
  apply (on_create_leaves_password_alone present_bob_on_create (listing ["bob"])
           [] ["bob"] [] []);
    [reflexivity | reflexivity | reflexivity | reflexivity |].
  exists "bob". split; [apply list_elem_of_singleton; reflexivity | by left].
Defined.

(** X14.  [state=update] for a user or group that the inventory does not list
    fails right after the inventory, with no further call: for a user with
    the does-not-exit message and no [changed] field, for a group with the
    update-failed message and [changed=False]. *)
Theorem update_on_missing_fails (p : Params) (iam : Provider) gl ul rl pl :
  state p = update ->
  names_activation p = false ->
  (iam_type p = user \/ (password p = None /\ access_key_state p = None)) ->
  iam_type p <> role ->
  inventory iam [] = (Ret (gl, ul, rl, pl), inventory_calls) ->
  not_in_inventory p gl ul rl ->
  run (main p) iam
    = (Abrupt
         (match iam_type p with
          | user =>
              FailJson None
                ("The user " +:+ fmt (name p) +:+ " does not exit. No update made.")
          | _ =>
              FailJson (Some false)
                ("Update Failed. Group " +:+ fmt (name p) +:+ " doesn't seem to exit!")
          end),
       inventory_calls).
Proof.
  intros Hst Hact Hval Hty Hinv Hmiss.
  rewrite (main_dispatch p iam gl ul rl pl Hact Hval) by done.
  unfold not_in_inventory in Hmiss. destruct (iam_type p); [| |done].
  - unfold main_user. rewrite Hst, (user_exists_false _ _ _ Hmiss). reflexivity.
  - unfold main_group. rewrite Hst, Hmiss. reflexivity.
Qed.

Lemma update_on_missing_fails_witness :
  run (main (update_of user "ghost")) quiet
    = (Abrupt (FailJson None "The user ghost does not exit. No update made."),
       inventory_calls) /\
  run (main (update_of group "ghosts")) quiet
    = (Abrupt (FailJson (Some false) "Update Failed. Group ghosts doesn't seem to exit!"),
       inventory_calls).
Proof.
  split.
  - apply (update_on_missing_fails (update_of user "ghost") quiet [] [] [] []);
      [reflexivity | reflexivity | by left | discriminate | reflexivity |].
    intros n Hn. by apply elem_of_nil in Hn.
  - apply (update_on_missing_fails (update_of group "ghosts") quiet [] [] [] []);
      [reflexivity | reflexivity | by right | discriminate | reflexivity | reflexivity].
Defined.

(** X15.  [state=present] with a [new_name] for a user the inventory lists
    under neither name matches no branch: [main] returns after the inventory
    without any further call and without calling [exit_json] or
    [fail_json]. *)
Theorem present_with_new_name_on_missing_user (p : Params) (iam : Provider) gl ul rl pl :
  iam_type p = user -> state p = present -> truthy (new_name p) = true ->
  names_activation p = false ->
  inventory iam [] = (Ret (gl, ul, rl, pl), inventory_calls) ->
  not_in_inventory p gl ul rl ->
  run (main p) iam = (Ret tt, inventory_calls).
Proof.
  intros Hty Hst Hnn Hact Hinv Hmiss.
  rewrite (main_dispatch p iam gl ul rl pl Hact) by (rewrite ?Hty; auto; done).
  unfold not_in_inventory in Hmiss. rewrite Hty in *.
  unfold main_user. rewrite Hst, (user_exists_false _ _ _ Hmiss), Hnn. reflexivity.
Qed.

Lemma present_with_new_name_on_missing_user_witness :
  run (main present_bob_as_robert) quiet = (Ret tt, inventory_calls).
Proof.
  apply (present_with_new_name_on_missing_user present_bob_as_robert quiet [] [] [] []);
    [reflexivity | reflexivity | reflexivity | reflexivity | reflexivity |].
  intros n Hn. by apply elem_of_nil in Hn.
Defined.

(** ** Groups *)

(** X16.  [state=present] for a group that the inventory does not list issues
    exactly one [create_group] call after the inventory.  If it is accepted
    the invocation exits with [changed=True] and the group name; if it
    faults, the handler calls [fail_json] on the [module] that [main] did
    not pass, and the invocation ends in an [AttributeError]. *)
Theorem present_on_missing_group (p : Params) (iam : Provider) gl ul rl pl :
  iam_type p = group -> state p = present ->
  password p = None -> access_key_state p = None ->
  inventory iam [] = (Ret (gl, ul, rl, pl), inventory_calls) ->
  name_in (name p) gl = false ->
  run (main p) iam
    = (Abrupt
         (match iam inventory_calls (CreateGroup (name p) (path p)) with
          | Ok _ => ExitJson (VBool true) [("group_name", vstr (name p))]
          | Fault _ =>
              Raise (AttributeError "'NoneType' object has no attribute 'fail_json'")
          end),
       inventory_calls ++ [CreateGroup (name p) (path p)]).
Proof.
  intros Hty Hst Hpw Hks Hinv Hmiss.
  rewrite (main_dispatch p iam gl ul rl pl) by
    (rewrite ?Hty; unfold names_activation; rewrite ?Hks; auto; done).
  rewrite Hty. unfold main_group. rewrite Hst, Hmiss. simpl.
  unfold bind, create_group, try_boto_else, call.
  by destruct (iam inventory_calls (CreateGroup (name p) (path p))).
Qed.

Lemma present_on_missing_group_witness :
  run (main (present_of group "ops")) create_group_denied
    = (Abrupt (Raise (AttributeError "'NoneType' object has no attribute 'fail_json'")),
       inventory_calls ++ [CreateGroup (Some "ops") (Some "/")]).
Proof.
  apply (present_on_missing_group (present_of group "ops") create_group_denied
           [] [] [] []); reflexivity.
Defined.

Section DeleteGroup.

Context (iam : Provider) (md : option unit) (n : option string) (t : Trace).

(** X17.  When the first [delete_group] call faults with the must-detach text,
    [delete_group] lists the inline policies, deletes each in listing order,
    and calls [delete_group] again; if that is accepted it returns
    [changed=True]. *)
Theorem delete_group_retries_after_inline_policies (e : BotoServerError)
    (ps : list string) :
  iam t (DeleteGroup n) = Fault e ->
  contains "must detach all policies first" (error_message e) = true ->
  iam (t ++ [DeleteGroup n]) (GetAllGroupPolicies n) = Ok ps ->
  (forall t' p, iam t' (DeleteGroupPolicy n p) = Ok tt) ->
  iam (t ++ [DeleteGroup n; GetAllGroupPolicies n]
         ++ map (DeleteGroupPolicy n) ps) (DeleteGroup n) = Ok tt ->
  delete_group md n iam t
    = (Ret (true, n),
       t ++ [DeleteGroup n; GetAllGroupPolicies n]
         ++ map (DeleteGroupPolicy n) ps ++ [DeleteGroup n]).
Proof.
  intros H1 Hmsg Hps Hdel H2.
  assert (Hloop : forall l t',
             for_each l (fun policy => call (DeleteGroupPolicy n policy)) iam t'
             = (Ret tt, t' ++ map (DeleteGroupPolicy n) l)).
  { induction l as [|x l IH]; intros t'; simpl.
    - unfold ret. by rewrite app_nil_r.
    - unfold bind, call at 1. rewrite Hdel, IH. by rewrite <- app_assoc. }
  unfold delete_group. unfold bind at 1, try_boto_else at 1, call at 1.
  rewrite H1. unfold boto_exception. rewrite Hmsg.
  unfold bind at 1, call at 1. rewrite Hps.
  unfold bind at 1. rewrite Hloop.
  unfold try_boto_else, call.
  replace (((t ++ [DeleteGroup n]) ++ [GetAllGroupPolicies n])
             ++ map (DeleteGroupPolicy n) ps)
    with (t ++ [DeleteGroup n; GetAllGroupPolicies n] ++ map (DeleteGroupPolicy n) ps)
    by (by rewrite <- !app_assoc).
  rewrite H2. unfold ret. simpl. f_equal. by rewrite <- !app_assoc.
Qed.

(** X18.  When the [delete_group] call faults with any text other than the
    must-detach one, [delete_group] issues no further call and returns
    [changed=False] as if nothing had failed. *)
Theorem delete_group_absorbs_other_faults (e : BotoServerError) :
  iam t (DeleteGroup n) = Fault e ->
  contains "must detach all policies first" (error_message e) = false ->
  delete_group md n iam t = (Ret (false, n), t ++ [DeleteGroup n]).
Proof.
  intros H1 Hmsg. unfold delete_group, bind, try_boto_else, call.
  rewrite H1. unfold boto_exception. by rewrite Hmsg.
Qed.

End DeleteGroup.

Lemma delete_group_retries_after_inline_policies_witness :
  delete_group None (Some "ops") ops_with_inline_policies []
    = (Ret (true, Some "ops"),
       [] ++ [DeleteGroup (Some "ops"); GetAllGroupPolicies (Some "ops")]
          ++ map (DeleteGroupPolicy (Some "ops")) ["q1"; "q2"]
          ++ [DeleteGroup (Some "ops")]).
Proof.
  apply (delete_group_retries_after_inline_policies ops_with_inline_policies None
           (Some "ops") [] must_detach ["q1"; "q2"]);
    [reflexivity | reflexivity | reflexivity | intros; reflexivity | reflexivity].
Defined.

Lemma delete_group_absorbs_other_faults_witness :
  delete_group None (Some "ops") ops_with_members []
    = (Ret (false, Some "ops"), [] ++ [DeleteGroup (Some "ops")]).
Proof.
  apply (delete_group_absorbs_other_faults ops_with_members None (Some "ops") []
           (fault_of "Cannot delete entity, must remove users from group first."));
    reflexivity.
Defined.

(** X19.  [state=absent] for a listed group: [main] unpacks the pair returned
    by [delete_group] in the other order, so whenever the invocation exits,
    its [changed] field is the group name (a string) and [delete_group] is
    the boolean. *)
Theorem absent_group_exit_swaps_result (p : Params) (iam : Provider) gl ul rl pl :
  iam_type p = group -> state p = absent ->
  password p = None -> access_key_state p = None ->
  inventory iam [] = (Ret (gl, ul, rl, pl), inventory_calls) ->
  name_in (name p) gl = true ->
  forall c fields tr,
    run (main p) iam = (Abrupt (ExitJson c fields), tr) ->
    c = vstr (name p) /\ exists b, fields = [("delete_group", VBool b)].
Proof.
  intros Hty Hst Hpw Hks Hinv Hin c fields tr.
  rewrite (main_dispatch p iam gl ul rl pl) by
    (rewrite ?Hty; unfold names_activation; rewrite ?Hks; auto; done).
  rewrite Hty. unfold main_group. rewrite Hst, Hin. simpl.
  unfold bind. destruct (delete_group None (name p) iam inventory_calls)
    as [[[b n']|s] t'] eqn:Hdel.
  - assert (n' = name p) as ->.
    { revert Hdel. unfold delete_group, bind.
      destruct (try_boto_else _ _ _ iam inventory_calls) as [[b'|s'] t'']; [|done].
      by intros [= _ <- _]. }
    intros [= <- <- _]. eauto.
  - intros [= -> _]. exfalso. revert Hdel.
    unfold delete_group, bind, try_boto_else, call, fail_json_on, raise, abort.
    destruct (iam inventory_calls (DeleteGroup (name p))) as [|e]; [done|].
    destruct (contains _ _); [|done].
    destruct (iam _ (GetAllGroupPolicies _)); [|done].
    destruct (for_each _ _ iam _) as [[[]|s] t2] eqn:Hloop.
    + destruct (iam t2 (DeleteGroup _)); [done|]. by destruct (contains _ _).
    + intros [= -> _].
      assert (Hno : forall l t0 s0 t1,
                 for_each l (fun policy => call (DeleteGroupPolicy (name p) policy))
                   iam t0 = (Abrupt s0, t1) -> exists ex, s0 = Raise ex).
      { induction l as [|x l IH]; intros t0 s0 t1; simpl; [done|].
        unfold bind, call at 1. destruct (iam t0 _); [apply IH|].
        intros [= <- _]. eauto. }
      apply Hno in Hloop as [ex Hex]. discriminate Hex.
Qed.

Lemma absent_group_exit_swaps_result_witness :
  VStr "ops" = vstr (name (absent_of group "ops")) /\
  exists b, [("delete_group", VBool true)] = [("delete_group", VBool b)].
Proof.
  apply (absent_group_exit_swaps_result (absent_of group "ops") group_ops
           ["ops"] [] [] [] eq_refl eq_refl eq_refl eq_refl eq_refl eq_refl
           (VStr "ops") [("delete_group", VBool true)]
           (inventory_calls ++ [DeleteGroup (Some "ops")])).
  reflexivity.
Defined.

(** X20.  On a provider that answers [get_group] and accepts the updates,
    [update_group] reads the path, issues a path-only [update_group] exactly
    when [new_path] is non-empty and differs from the current path, then a
    second [update_group] carrying the new name and [new_path] exactly when
    [new_name] is non-empty and differs from [name]; [changed] is true
    exactly when one of them was issued, and the name returned is the new
    one only after a rename. *)
Theorem update_group_calls (iam : Provider) (t : Trace) md name new_name new_path cp :
  iam t (GetGroup name) = Ok cp ->
  (forall t' a b, iam t' (UpdateGroup name a b) = Ok tt) ->
  let move := truthy new_path && py_ne (Some cp) new_path in
  let rename := truthy new_name && py_ne name new_name in
  update_group md name new_name new_path iam t
    = (Ret (move || rename, if rename then new_name else name, new_path, cp),
       t ++ [GetGroup name]
         ++ (if move then [UpdateGroup name None new_path] else [])
         ++ (if rename then [UpdateGroup name new_name new_path] else [])).
Proof.
  intros Hget Hupd move rename. subst move rename.
  unfold update_group, bind, try_boto, try_boto_else, call, ret.
  rewrite Hget.
  destruct (truthy new_path), (py_ne (Some cp) new_path),
    (truthy new_name), (py_ne name new_name); simpl;
    rewrite ?Hupd; simpl; rewrite ?Hupd; simpl;
    rewrite <- ?app_assoc; reflexivity.
Qed.

Lemma update_group_calls_witness :
  update_group None (Some "ops") (Some "sre") (Some "/teams/") group_ops []
    = (Ret (true, Some "sre", Some "/teams/", "/"),
       [] ++ [GetGroup (Some "ops")]
          ++ [UpdateGroup (Some "ops") None (Some "/teams/")]
          ++ [UpdateGroup (Some "ops") (Some "sre") (Some "/teams/")]).
Proof.
  apply (update_group_calls group_ops [] None (Some "ops") (Some "sre") (Some "/teams/") "/");
    [reflexivity | intros; reflexivity].
Defined.

(** X21.  The group branch of [main] never reports a provider fault through
    [fail_json]: its only [fail_json] is the update of a missing group, made
    before any call.  Whenever the branch is left by an exception, the last
    call faulted, and the exception is that fault or the [AttributeError] of
    the missing [module]. *)
Theorem group_faults_are_never_reported (p : Params) (iam : Provider)
    (gl : list string) (t t' : Trace) (s : Abort) :
  main_group p gl iam t = (Abrupt s, t') ->
  match s with
  | FailJson c msg =>
      state p = update /\ name_in (name p) gl = false /\ t' = t /\ c = Some false
  | ExitJson _ _ => True
  | Raise ex =>
      exists pre c err,
        t' = t ++ pre ++ [c] /\ iam (t ++ pre) c = Fault err /\
        (ex = BotoErr err \/
         ex = AttributeError "'NoneType' object has no attribute 'fail_json'")
  end.
Proof.
  intros Hrun.
  destruct (bool_decide (state p = update) && negb (name_in (name p) gl)) eqn:Hup.
  - apply andb_true_iff in Hup as [Hst%bool_decide_eq_true Hmiss%negb_true_iff].
    unfold main_group in Hrun.
    rewrite Hst, Hmiss in Hrun. simpl in Hrun. injection Hrun as <- <-. done.
  - assert (Hc : crashing iam (main_group p gl)).
    { unfold main_group. rewrite Hup.
      unfold create_group, update_group, delete_group.
      repeat crashing_step. }
    destruct (wp_elim _ _ _ _ _ (Hc t)) as (r & tr & Hrun' & Hpost).
    rewrite Hrun in Hrun'. injection Hrun' as <- ->.
    destruct s as [ex|c f|c msg]; simpl in Hpost; [|done|done].
    destruct Hpost as (pre & c & err & -> & Hf & Hex). by exists pre, c, err.
Qed.

Lemma group_faults_are_never_reported_witness :
  exists pre c err,
    inventory_calls ++ [CreateGroup (Some "ops") (Some "/")]
      = inventory_calls ++ pre ++ [c] /\
    create_group_denied (inventory_calls ++ pre) c = Fault err /\
    (AttributeError "'NoneType' object has no attribute 'fail_json'" = BotoErr err \/
     AttributeError "'NoneType' object has no attribute 'fail_json'"
       = AttributeError "'NoneType' object has no attribute 'fail_json'").
Proof.
  apply (group_faults_are_never_reported (present_of group "ops") create_group_denied
           [] inventory_calls _
           (Raise (AttributeError "'NoneType' object has no attribute 'fail_json'"))).
  reflexivity.
Defined.

(** ** Roles *)

(** X22.  On a provider that accepts every call, [create_role] for a role not
    in the role list issues [create_role], then [create_instance_profile]
    and [add_role_to_instance_profile] only if no instance profile of that
    name is listed, then [list_roles], and returns [changed=True] with the
    provider's answer to that [list_roles] call. *)
Theorem create_role_calls (iam : Provider) (t : Trace) name path rl pl :
  fault_free iam ->
  name_in name rl = false ->
  let created :=
    t ++ [CreateRole name path]
      ++ (if name_in name pl then []
          else [CreateInstanceProfile name path; AddRoleToInstanceProfile name name]) in
  exists roles,
    iam created ListRoles = Ok roles /\
    create_role name path rl pl iam t = (Ret (true, roles), created ++ [ListRoles]).
Proof.
  intros Hff Hmiss created.
  assert (Hwp : wp iam t (create_role name path rl pl)
            (fun r tr =>
               r.1 = true /\ iam created ListRoles = Ok r.2 /\
               t ++ tr = created ++ [ListRoles])
            (fun _ _ => False)).
  { unfold create_role, when. rewrite Hmiss. simpl negb. cbv iota. subst created.
    destruct (name_in name pl); simpl; wp_steps; no_fault; simpl;
      rewrite ?app_nil_r, <- ?app_assoc in *; done. }
  apply wp_elim in Hwp as (r & tr & Hrun & Hpost).
  destruct r as [[ch roles]|]; [|done]. destruct Hpost as (Hch & Hroles & Htr).
  simpl in Hch, Hroles. subst ch. exists roles. by rewrite Hrun, Htr.
Qed.

Lemma create_role_calls_witness :
  exists roles,
    role_r1_once_created
      ([] ++ [CreateRole (Some "r1") (Some "/")]
          ++ [CreateInstanceProfile (Some "r1") (Some "/");
              AddRoleToInstanceProfile (Some "r1") (Some "r1")]) ListRoles = Ok roles /\
    create_role (Some "r1") (Some "/") [] ["web"] role_r1_once_created []
      = (Ret (true, roles),
         ([] ++ [CreateRole (Some "r1") (Some "/")]
             ++ [CreateInstanceProfile (Some "r1") (Some "/");
                 AddRoleToInstanceProfile (Some "r1") (Some "r1")])
           ++ [ListRoles]).
Proof.
  apply (create_role_calls role_r1_once_created [] (Some "r1") (Some "/") [] ["web"]);
    [intros t c; destruct c; eexists; reflexivity | reflexivity].
Defined.

(** X23.  Whenever [create_role] fails, the failure says [changed=True], and
    the role was not in the role list: it says so even when the refused call
    is the [create_role] call itself and nothing was created. *)
Theorem create_role_failure_reports_change (iam : Provider) (t t' : Trace)
    name path rl pl c msg :
  create_role name path rl pl iam t = (Abrupt (FailJson c msg), t') ->
  c = Some true /\ name_in name rl = false.
Proof.
  intros Hrun.
  assert (Hwp : wp iam t (create_role name path rl pl) (fun _ _ => True)
            (fun s _ => forall c msg, s = FailJson c msg ->
                                      c = Some true /\ name_in name rl = false)).
  { unfold create_role, when. destruct (name_in name rl) eqn:Hin; simpl;
      [|destruct (name_in name pl); simpl];
      wp_steps; try done; intros ? ? [= <- _]; done. }
  apply wp_elim in Hwp as (r & tr & Hrun' & Hpost).
  rewrite Hrun in Hrun'. injection Hrun' as <- _. by eapply Hpost.
Qed.

Lemma create_role_failure_reports_change_witness :
  Some true = Some true /\ name_in (Some "r1") [] = false.
Proof.
  apply (create_role_failure_reports_change profile_quota_reached []
           [CreateRole (Some "r1") (Some "/"); CreateInstanceProfile (Some "r1") (Some "/")]
           (Some "r1") (Some "/") [] [] (Some true)
           "Cannot exceed quota for InstanceProfilesPerAccount: 100").
  reflexivity.
Defined.

(** X24.  Whenever [create_role] or [delete_role] returns, the role list it
    returns is the provider's answer to a [list_roles] call issued as its
    last call, not the list it was given. *)
Theorem role_list_is_refetched (iam : Provider) (t t' : Trace)
    name path rl pl changed roles :
  (create_role name path rl pl iam t = (Ret (changed, roles), t') \/
   delete_role name rl pl iam t = (Ret (changed, roles), t')) ->
  exists pre, t' = pre ++ [ListRoles] /\ iam pre ListRoles = Ok roles.
Proof.
  assert (Hlast : forall ch t1,
             (do updated_role_list <- call ListRoles;
              ret (ch, updated_role_list)) iam t1 = (Ret (changed, roles), t') ->
             exists pre, t' = pre ++ [ListRoles] /\ iam pre ListRoles = Ok roles).
  { intros ch t1. unfold bind, call, ret.
    destruct (iam t1 ListRoles) as [l|e] eqn:Hl; [|done].
    intros [= _ <- <-]. eauto. }
  intros [Hrun|Hrun]; revert Hrun.
  - unfold create_role. unfold bind at 1.
    lazymatch goal with
    | |- match ?x with _ => _ end = _ -> _ => destruct x as [[ch|s] t1]
    end; [apply Hlast|done].
  - unfold delete_role. unfold bind at 1.
    lazymatch goal with
    | |- match ?x with _ => _ end = _ -> _ => destruct x as [[ch|s] t1]
    end; [|done].
    unfold bind at 1.
    lazymatch goal with
    | |- match ?x with _ => _ end = _ -> _ => destruct x as [[[]|s] t2]
    end; [apply Hlast|done].
Qed.

Lemma role_list_is_refetched_witness :
  exists pre,
    [CreateRole (Some "r1") (Some "/"); ListRoles] = pre ++ [ListRoles] /\
    role_r1 pre ListRoles = Ok ["r1"].
Proof.
  apply (role_list_is_refetched role_r1 [] _ (Some "r1") (Some "/") [] ["r1"] true ["r1"]).
  left. reflexivity.
Defined.

Section DeleteRole.

Context (iam : Provider) (name : option string).

Hypothesis detach_ok :
  forall t pr, iam t (RemoveRoleFromInstanceProfile pr name) = Ok tt.

Hypothesis delete_profile_ok : forall t, iam t (DeleteInstanceProfile name) = Ok tt.

Lemma detach_loop l : forall t,
  for_each l (fun profile => call (RemoveRoleFromInstanceProfile profile name)) iam t
    = (Ret tt, t ++ map (fun pr => RemoveRoleFromInstanceProfile pr name) l).
Proof.
  induction l as [|x l IH]; intros t; simpl.
  - unfold ret. by rewrite app_nil_r.
  - unfold bind, call at 1. rewrite detach_ok, IH. by rewrite <- app_assoc.
Qed.

Lemma same_name_profiles_loop l : forall t,
  for_each l (fun prof =>
    when (bool_decide (name = Some prof)) (call (DeleteInstanceProfile name))) iam t
    = (Ret tt,
       t ++ map (fun _ => DeleteInstanceProfile name)
              (List.filter (fun prof => bool_decide (name = Some prof)) l)).
Proof.
  induction l as [|x l IH]; intros t; simpl.
  - unfold ret. by rewrite app_nil_r.
  - unfold bind, when. destruct (bool_decide (name = Some x)); simpl.
    + unfold call at 1. rewrite delete_profile_ok, IH. by rewrite <- app_assoc.
    + unfold ret at 1. apply IH.
Qed.

(** X25.  On a provider that accepts the detachments and profile deletions,
    [delete_role] for a listed role detaches the role from each instance
    profile the provider lists for it, in order, deletes the role, then
    issues one [delete_instance_profile] for every entry of the profile list
    equal to the role name, then [list_roles]; it returns [changed=True]
    with the fresh listing. *)
Theorem delete_role_calls (t : Trace) rl pl profs roles :
  name_in name rl = true ->
  iam t (ListInstanceProfilesForRole name) = Ok profs ->
  let detached :=
    t ++ [ListInstanceProfilesForRole name]
      ++ map (fun pr => RemoveRoleFromInstanceProfile pr name) profs in
  let same_name :=
    map (fun _ => DeleteInstanceProfile name)
      (List.filter (fun prof => bool_decide (name = Some prof)) pl) in
  iam detached (DeleteRole name) = Ok tt ->
  iam (detached ++ [DeleteRole name] ++ same_name) ListRoles = Ok roles ->
  delete_role name rl pl iam t
    = (Ret (true, roles), detached ++ [DeleteRole name] ++ same_name ++ [ListRoles]).
Proof.
  intros Hin Hprofs detached same_name Hdel Hroles.
  unfold delete_role. rewrite Hin.
  unfold bind at 1, try_boto at 1, try_boto_else at 1.
  unfold bind at 1, call at 1. rewrite Hprofs.
  unfold bind at 1. rewrite detach_loop.
  unfold try_boto_else at 1, call at 1.
  replace ((t ++ [ListInstanceProfilesForRole name])
             ++ map (fun pr => RemoveRoleFromInstanceProfile pr name) profs)
    with detached by (subst detached; by rewrite <- app_assoc).
  rewrite Hdel. unfold ret at 1. unfold ret at 1.
  unfold bind at 1, try_boto at 1, try_boto_else at 1.
  rewrite same_name_profiles_loop. fold same_name. unfold ret at 1.
  unfold bind, call.
  replace ((detached ++ [DeleteRole name]) ++ same_name)
    with (detached ++ [DeleteRole name] ++ same_name) by (by rewrite <- app_assoc).
  rewrite Hroles. unfold ret. f_equal. by rewrite <- !app_assoc.
Qed.

(** X26.  When the first [delete_role] call faults with a text other than the
    must-detach one, no inline policy is listed or deleted and [delete_role]
    is called a second time all the same; if that call is accepted the role
    counts as removed ([changed=True]). *)
Theorem delete_role_retries_after_any_fault (t : Trace) rl pl profs roles e :
  name_in name rl = true ->
  iam t (ListInstanceProfilesForRole name) = Ok profs ->
  let detached :=
    t ++ [ListInstanceProfilesForRole name]
      ++ map (fun pr => RemoveRoleFromInstanceProfile pr name) profs in
  let same_name :=
    map (fun _ => DeleteInstanceProfile name)
      (List.filter (fun prof => bool_decide (name = Some prof)) pl) in
  iam detached (DeleteRole name) = Fault e ->
  contains "must detach all policies first" (error_message e) = false ->
  iam (detached ++ [DeleteRole name]) (DeleteRole name) = Ok tt ->
  iam (detached ++ [DeleteRole name; DeleteRole name] ++ same_name) ListRoles
    = Ok roles ->
  delete_role name rl pl iam t
    = (Ret (true, roles),
       detached ++ [DeleteRole name; DeleteRole name] ++ same_name ++ [ListRoles]).
Proof.
  intros Hin Hprofs detached same_name Hdel Hmsg Hdel2 Hroles.
  unfold delete_role. rewrite Hin.
  unfold bind at 1, try_boto at 1, try_boto_else at 1.
  unfold bind at 1, call at 1. rewrite Hprofs.
  unfold bind at 1. rewrite detach_loop.
  unfold try_boto_else at 1, call at 1.
  replace ((t ++ [ListInstanceProfilesForRole name])
             ++ map (fun pr => RemoveRoleFromInstanceProfile pr name) profs)
    with detached by (subst detached; by rewrite <- app_assoc).
  rewrite Hdel. unfold boto_exception. rewrite Hmsg.
  unfold bind at 1, when at 1, ret at 1.
  unfold try_boto_else at 1, call at 1. rewrite Hdel2.
  unfold ret at 1. unfold ret at 1.
  unfold bind at 1, try_boto at 1, try_boto_else at 1.
  rewrite same_name_profiles_loop. fold same_name. unfold ret at 1.
  unfold bind, call.
  replace (((detached ++ [DeleteRole name]) ++ [DeleteRole name]) ++ same_name)
    with (detached ++ [DeleteRole name; DeleteRole name] ++ same_name)
    by (by rewrite <- !app_assoc).
  rewrite Hroles. unfold ret. f_equal. by rewrite <- !app_assoc.
Qed.

End DeleteRole.

Lemma delete_role_calls_witness :
  delete_role (Some "r1") ["r1"] ["web"; "r1"] role_r1_in_profiles []
    = (Ret (true, []),
       ([] ++ [ListInstanceProfilesForRole (Some "r1")]
           ++ map (fun pr => RemoveRoleFromInstanceProfile pr (Some "r1")) ["web"; "r1"])
         ++ [DeleteRole (Some "r1")]
         ++ map (fun _ => DeleteInstanceProfile (Some "r1"))
              (List.filter (fun prof => bool_decide (Some "r1" = Some prof)) ["web"; "r1"])
         ++ [ListRoles]).
Proof.
  apply (delete_role_calls role_r1_in_profiles (Some "r1")
           ltac:(intros; reflexivity) ltac:(intros; reflexivity)
           [] ["r1"] ["web"; "r1"] ["web"; "r1"] []); reflexivity.
Defined.

Lemma delete_role_retries_after_any_fault_witness :
  delete_role (Some "r1") ["r1"] [] role_r1_throttled []
    = (Ret (true, ["r1"]),
       ([] ++ [ListInstanceProfilesForRole (Some "r1")]
           ++ map (fun pr => RemoveRoleFromInstanceProfile pr (Some "r1")) [])
         ++ [DeleteRole (Some "r1"); DeleteRole (Some "r1")]
         ++ map (fun _ => DeleteInstanceProfile (Some "r1"))
              (List.filter (fun prof => bool_decide (Some "r1" = Some prof)) [])
         ++ [ListRoles]).
Proof.
  apply (delete_role_retries_after_any_fault role_r1_throttled (Some "r1")
           ltac:(intros; reflexivity) ltac:(intros; reflexivity)
           [] ["r1"] [] [] ["r1"] (fault_of "Rate exceeded")); reflexivity.
Defined.
